(** * Breezy Desktop XFCE4 renderer: a shallow embedding in Rocq

    Covers the shared-memory IMU reader (src/xfce4/renderer/imu_reader.c),
    the frame-handoff ring and the DMA-BUF slot of the renderer
    (src/xfce4/renderer/breezy_xfce4_renderer.c), the uniform computation
    of the render loop, the shared math library
    (src/shared/math/breezy_math.c, breezy_math.h), the start, cleanup and
    exit status of [main], the DMA-BUF export (drm_capture.c), the
    descriptor part of [cleanup_dmabuf_texture] (opengl_context.c) and the
    log file handling (logging.c).

    Bytes are integers in [0, 256); a memory buffer is a [list Z] read with
    [nth _ _ 0].  Floating-point values of the math code are modelled as
    real numbers (exact arithmetic). *)

From Stdlib Require Import ZArith List Bool Lia.
From Stdlib Require Import Reals Lra Psatz.
From Stdlib Require Import Permutation.
From Stdlib Require String.
Import ListNotations.

Open Scope Z_scope.

(** ** Byte buffers *)

Module Bytes.

(** [data[i] = v] on a buffer (in range; out of range the buffer is kept). *)
Fixpoint replace_nth (i : nat) (v : Z) (l : list Z) : list Z :=
  match l, i with
  | [], _ => []
  | _ :: t, O => v :: t
  | h :: t, S i' => h :: replace_nth i' v t
  end.

(** [memcpy(dst, &data[off], len)]: the [len] bytes from offset [off]. *)
Definition slice (off len : nat) (data : list Z) : list Z :=
  firstn len (skipn off data).

(** Little-endian decoding of a [memcpy]'d unsigned integer. *)
Fixpoint le_decode (l : list Z) : Z :=
  match l with
  | [] => 0
  | b :: t => b + 256 * le_decode t
  end.

End Bytes.

(** ** Shared-memory IMU reader (imu_reader.c) *)

Module ImuReader.
Import Bytes.

Definition OFFSET_VERSION := 0%nat.
Definition OFFSET_ENABLED := 1%nat.
Definition OFFSET_LOOK_AHEAD_CFG := 2%nat.
Definition OFFSET_DISPLAY_RES := 18%nat.
Definition OFFSET_DISPLAY_FOV := 26%nat.
Definition OFFSET_LENS_DISTANCE_RATIO := 30%nat.
Definition OFFSET_SBS_ENABLED := 34%nat.
Definition OFFSET_CUSTOM_BANNER_ENABLED := 35%nat.
Definition OFFSET_SMOOTH_FOLLOW_ENABLED := 36%nat.
Definition OFFSET_SMOOTH_FOLLOW_ORIGIN_DATA := 37%nat.
Definition OFFSET_POSE_POSITION := 101%nat.
Definition OFFSET_EPOCH_MS := 113%nat.
Definition OFFSET_POSE_ORIENTATION := 121%nat.
Definition OFFSET_IMU_PARITY_BYTE := 185%nat.

(** The loop [for (i = from; i < OFFSET_IMU_PARITY_BYTE; i++) parity ^= data[i];]
    with [fuel] iterations left. *)
Fixpoint parity_loop (data : list Z) (i fuel : nat) (parity : Z) : Z :=
  match fuel with
  | O => parity
  | S f => parity_loop data (S i) f (Z.lxor parity (nth i data 0))
  end.

Definition calculate_parity (data : list Z) : Z :=
  parity_loop data OFFSET_EPOCH_MS
    (OFFSET_IMU_PARITY_BYTE - OFFSET_EPOCH_MS) 0.

(** [IMUData]: floats are kept as the bytes [memcpy] copies. *)
Record IMUData := mkIMUData {
  pose_orientation : list Z;   (* 16 floats = 64 bytes *)
  position : list Z;           (* 3 floats = 12 bytes *)
  timestamp_ms : Z;            (* uint64_t *)
  valid : bool
}.

(** [IMUData result = {0};] *)
Definition imu_zero : IMUData :=
  mkIMUData (repeat 0 64) (repeat 0 12) 0 false.

(** [IMUReader]: [shm_ptr] is abstracted to whether it is non-NULL, and the
    bytes it maps. *)
Record IMUReader := mkIMUReader {
  shm_fd : Z;
  shm_mapped : bool;        (* shm_ptr != NULL *)
  shm : list Z;             (* the bytes at shm_ptr *)
  latest : IMUData
}.

Definition with_latest (r : IMUReader) (d : IMUData) : IMUReader :=
  mkIMUReader (shm_fd r) (shm_mapped r) (shm r) d.

(** The reader seeing the bytes [data] at [shm_ptr]. *)
Definition with_shm (r : IMUReader) (data : list Z) : IMUReader :=
  mkIMUReader (shm_fd r) (shm_mapped r) data (latest r).

Definition reader_ready (r : IMUReader) : bool :=
  shm_mapped r && (0 <=? shm_fd r).

Definition read_latest_imu (r : IMUReader) : IMUData * IMUReader :=
  let result := imu_zero in
  if negb (reader_ready r) then (result, r) else
  let data := shm r in
  let enabled := negb (nth OFFSET_ENABLED data 0 =? 0) in
  if negb enabled then (result, r) else
  let expected_parity := calculate_parity data in
  let actual_parity := nth OFFSET_IMU_PARITY_BYTE data 0 in
  if negb (expected_parity =? actual_parity) then (result, r) else
  let pos := slice OFFSET_POSE_POSITION 12 data in
  let epoch_low := le_decode (slice OFFSET_EPOCH_MS 4 data) in
  let epoch_high := le_decode (slice (OFFSET_EPOCH_MS + 4) 4 data) in
  let ts := Z.lor (Z.shiftl epoch_high 32) epoch_low in
  let orient := slice OFFSET_POSE_ORIENTATION 64 data in
  let result := mkIMUData orient pos ts true in
  (result, with_latest r result).

(** [DeviceConfig]: floats kept as bytes, [uint32_t] pairs decoded. *)
Record DeviceConfig := mkDeviceConfig {
  look_ahead_cfg : list Z;          (* 4 floats *)
  display_resolution : Z * Z;       (* 2 uint32_t *)
  display_fov : list Z;             (* 1 float *)
  lens_distance_ratio : list Z;     (* 1 float *)
  sbs_enabled : bool;
  custom_banner_enabled : bool;
  smooth_follow_enabled : bool;
  smooth_follow_origin : list Z;    (* 16 floats *)
  cfg_valid : bool
}.

(** [DeviceConfig config = {0};] *)
Definition config_zero : DeviceConfig :=
  mkDeviceConfig (repeat 0 16) (0, 0) (repeat 0 4) (repeat 0 4)
    false false false (repeat 0 64) false.

Definition read_device_config (r : IMUReader) : DeviceConfig :=
  let config := config_zero in
  if negb (reader_ready r) then config else
  let data := shm r in
  let enabled := negb (nth OFFSET_ENABLED data 0 =? 0) in
  if negb enabled then config else
  let expected_parity := calculate_parity data in
  let actual_parity := nth OFFSET_IMU_PARITY_BYTE data 0 in
  if negb (expected_parity =? actual_parity) then config else
  mkDeviceConfig
    (slice OFFSET_LOOK_AHEAD_CFG 16 data)
    (le_decode (slice OFFSET_DISPLAY_RES 4 data),
     le_decode (slice (OFFSET_DISPLAY_RES + 4) 4 data))
    (slice OFFSET_DISPLAY_FOV 4 data)
    (slice OFFSET_LENS_DISTANCE_RATIO 4 data)
    (negb (nth OFFSET_SBS_ENABLED data 0 =? 0))
    (negb (nth OFFSET_CUSTOM_BANNER_ENABLED data 0 =? 0))
    (negb (nth OFFSET_SMOOTH_FOLLOW_ENABLED data 0 =? 0))
    (slice OFFSET_SMOOTH_FOLLOW_ORIGIN_DATA 64 data)
    true.

(** A buffer the readers accept: enabled, with matching trailer parity. *)
Definition accepted (data : list Z) : bool :=
  negb (nth OFFSET_ENABLED data 0 =? 0) &&
  (calculate_parity data =? nth OFFSET_IMU_PARITY_BYTE data 0).

End ImuReader.

(** ** Frame-handoff ring (write_frame / read_latest_frame) *)

Module FrameRing.
Import Bytes.

Definition RING_BUFFER_SIZE := 3.

(** [FrameBuffer]; the [frames] pointers are all NULL with DMA-BUF and are
    left out; a [struct timespec] is kept as one integer. *)
Record FrameBuffer := mkFrameBuffer {
  width : Z;
  height : Z;
  write_index : Z;          (* uint32_t *)
  read_index : Z;           (* uint32_t *)
  timestamps : list Z;      (* RING_BUFFER_SIZE entries *)
  frame_count : Z           (* uint32_t *)
}.

(** [write_frame(fb, data, width, height)], with [now] the value that
    [clock_gettime] stores. *)
Definition write_frame (fb : FrameBuffer) (w h now : Z) : bool * FrameBuffer :=
  if negb (w =? width fb) || negb (h =? height fb) then (false, fb) else
  let next_write := (write_index fb + 1) mod RING_BUFFER_SIZE in
  (true, mkFrameBuffer (width fb) (height fb) next_write (read_index fb)
           (replace_nth (Z.to_nat next_write) now (timestamps fb))
           ((frame_count fb + 1) mod 2 ^ 32)).

(** [read_latest_frame(fb, &data, &timestamp)]: the return value and the
    timestamp stored; [*data] is always NULL. *)
Definition read_latest_frame (fb : FrameBuffer) : bool * Z :=
  let read_idx := write_index fb in
  (true, nth (Z.to_nat read_idx) (timestamps fb) 0).

(** A run of [write_frame] calls by the capture thread: (width, height, now). *)
Fixpoint write_frames (fb : FrameBuffer) (ws : list (Z * Z * Z)) : FrameBuffer :=
  match ws with
  | [] => fb
  | (w, h, now) :: ws' => write_frames (snd (write_frame fb w h now)) ws'
  end.

(** The shape every [FrameBuffer] has after [init_frame_buffer]. *)
Definition ring_ok (fb : FrameBuffer) : Prop :=
  0 <= write_index fb < RING_BUFFER_SIZE /\
  length (timestamps fb) = Z.to_nat RING_BUFFER_SIZE.

End FrameRing.

(** ** DMA-BUF handoff slot (capture_thread_func / render_frame) *)

Module Handoff.

(** The shared fields of [RenderThread] guarded by [dmabuf_mutex]. *)
Record Slot := mkSlot {
  current_dmabuf_fd : Z;
  current_fb_id : Z;
  current_format : Z;
  current_stride : Z;
  current_modifier : Z
}.

(** The publish step of [capture_thread_func] after a successful
    [export_drm_framebuffer_to_dmabuf] returned [dmabuf_fd]; [thread_fb_id]
    is the capture thread's [fb_id].  The second component lists the
    descriptors passed to [close]. *)
Definition capture_publish (s : Slot) (thread_fb_id dmabuf_fd format stride
    modifier : Z) : Slot * list Z :=
  let closed :=
    if (0 <=? current_dmabuf_fd s) && negb (thread_fb_id =? current_fb_id s)
    then [current_dmabuf_fd s] else [] in
  (mkSlot dmabuf_fd thread_fb_id format stride modifier, closed).

(** The take step of [render_frame]: read the slot and mark it consumed. *)
Definition render_take (s : Slot) : Z * Slot :=
  let dmabuf_fd := current_dmabuf_fd s in
  if 0 <=? dmabuf_fd then
    (dmabuf_fd, mkSlot (-1) (current_fb_id s) (current_format s)
                  (current_stride s) (current_modifier s))
  else (dmabuf_fd, s).

(** [export_drm_framebuffer_to_dmabuf] calls [drmPrimeHandleToFD] on every
    call, which yields a fresh descriptor each time: a run of the capture
    loop with the descriptors [fds] exported in turn.  The result is the
    slot and every descriptor closed by the capture thread. *)
Fixpoint capture_run (s : Slot) (thread_fb_id : Z) (fds : list Z)
    : Slot * list Z :=
  match fds with
  | [] => (s, [])
  | fd :: fds' =>
      let '(s1, c1) := capture_publish s thread_fb_id fd 0 0 0 in
      let '(s2, c2) := capture_run s1 thread_fb_id fds' in
      (s2, c1 ++ c2)
  end.

End Handoff.

(** ** Shared math library (breezy_math.c), over the reals *)

Module BreezyMath.
Local Open Scope R_scope.

Record BreezyFOVs := mkFOVs {
  diagonal : R;
  horizontal : R;
  vertical : R
}.

Definition breezy_diagonal_to_cross_fovs (diagonal_fov_radians aspect_ratio : R)
    : BreezyFOVs :=
  let flat_diagonal_fov := 2 * tan (diagonal_fov_radians / 2) in
  let flat_vertical_fov :=
    flat_diagonal_fov / sqrt (1 + aspect_ratio * aspect_ratio) in
  let flat_horizontal_fov := flat_vertical_fov * aspect_ratio in
  mkFOVs diagonal_fov_radians
    (2 * atan (flat_horizontal_fov / 2))
    (2 * atan (flat_vertical_fov / 2)).

(** The inverse composition: spherical FOVs to flat lengths [2 tan(fov/2)],
    Pythagorean recomposition, and back with [2 atan(length/2)]. *)
Definition cross_fovs_to_diagonal (horizontal_fov vertical_fov : R) : R :=
  let flat_h := 2 * tan (horizontal_fov / 2) in
  let flat_v := 2 * tan (vertical_fov / 2) in
  2 * atan (sqrt (flat_h * flat_h + flat_v * flat_v) / 2).

(** [breezy_calculate_look_ahead_ms]: timestamps are [uint64_t] (as [Z]),
    the constant and override are floats. *)
Definition breezy_calculate_look_ahead_ms (imu_timestamp_ms current_time_ms : Z)
    (look_ahead_constant look_ahead_override : R) : R :=
  let data_age :=
    if (imu_timestamp_ms <? current_time_ms)%Z
    then (current_time_ms - imu_timestamp_ms)%Z else 0%Z in
  let look_ahead :=
    if Rle_dec 0 look_ahead_override then look_ahead_override
    else look_ahead_constant in
  look_ahead + IZR data_age.

(** Quaternions [x, y, z, w]. *)
Record Quat := mkQuat { qx : R; qy : R; qz : R; qw : R }.

Definition qdot (a b : Quat) : R :=
  qx a * qx b + qy a * qy b + qz a * qz b + qw a * qw b.

Definition qnorm (q : Quat) : R := sqrt (qdot q q).

Definition qneg (q : Quat) : Quat := mkQuat (- qx q) (- qy q) (- qz q) (- qw q).

(** [w1 * q1 + w2 * q2], componentwise. *)
Definition qcomb (w1 : R) (q1 : Quat) (w2 : R) (q2 : Quat) : Quat :=
  mkQuat (w1 * qx q1 + w2 * qx q2) (w1 * qy q1 + w2 * qy q2)
         (w1 * qz q1 + w2 * qz q2) (w1 * qw q1 + w2 * qw q2).

(** Lines 116-163 of [breezy_slerp_quaternion]: the interpolated, not yet
    normalized, result. *)
Definition slerp_interpolate (q1 q2 : Quat) (t0 : R) : Quat :=
  let t1 := if Rlt_dec t0 0 then 0 else t0 in
  let t := if Rlt_dec 1 t1 then 1 else t1 in
  let dot0 := qdot q1 q2 in
  let '(actual_q2, dot1) :=
    if Rlt_dec dot0 0 then (qneg q2, - dot0) else (q2, dot0) in
  let dot2 := if Rlt_dec 1 dot1 then 1 else dot1 in
  let dot := if Rlt_dec dot2 (-1) then -1 else dot2 in
  let theta := acos dot in
  let sin_theta := sin theta in
  if Rlt_dec sin_theta (/ 1000000) then
    let one_minus_t := 1 - t in
    qcomb one_minus_t q1 t actual_q2
  else
    let one_minus_t := 1 - t in
    let w1 := sin (one_minus_t * theta) / sin_theta in
    let w2 := sin (t * theta) / sin_theta in
    qcomb w1 q1 w2 actual_q2.

(** The closing "Normalize result" block. *)
Definition normalize_result (result : Quat) : Quat :=
  let len := qnorm result in
  if Rlt_dec 0 len then
    mkQuat (qx result / len) (qy result / len) (qz result / len) (qw result / len)
  else result.

Definition breezy_slerp_quaternion (q1 q2 : Quat) (t : R) : Quat :=
  normalize_result (slerp_interpolate q1 q2 t).

End BreezyMath.

(** ** Uniforms of the render loop (set_shader_uniforms) *)

Module Uniforms.
Import BreezyMath.
Local Open Scope R_scope.

(** The fields of [DeviceConfig] used by [set_shader_uniforms], floats as
    reals and [uint32_t] as integers. *)
Record ConfigR := mkConfigR {
  look_ahead_cfg0 : R;
  display_resolution_w : Z;
  display_resolution_h : Z;
  display_fov : R;                  (* degrees *)
  lens_distance_ratio : R;
  sbs_enabled : bool;
  custom_banner_enabled : bool;
  config_valid : bool
}.

(** The values passed to [glUniform*] that depend on the inputs. *)
Record UniformSet := mkUniformSet {
  u_look_ahead_ms : R;
  u_frametime : R;
  u_half_fov_z_rads : R;
  u_half_fov_y_rads : R;
  u_fov_half_widths : R * R;
  u_fov_widths : R * R;
  u_source_to_display_ratio : R * R;
  u_lens_vector : R * R * R;
  u_custom_banner_enabled : Z;
  u_sbs_enabled : Z;
  u_curved_display : Z;
  u_show_banner : Z
}.

(** [set_shader_uniforms(thread, imu, config, width, height)]: [None] when
    it returns early; [now_ms] is the [CLOCK_REALTIME] reading. *)
Definition set_shader_uniforms (shader_program : Z) (refresh_rate : Z)
    (imu_valid : bool) (imu_timestamp_ms : Z) (config : ConfigR)
    (width height : Z) (now_ms : Z) : option UniformSet :=
  if (shader_program =? 0)%Z || negb imu_valid || negb (config_valid config)
  then None else
  let data_age_ms :=
    if (imu_timestamp_ms <? now_ms)%Z then (now_ms - imu_timestamp_ms)%Z
    else 0%Z in
  let look_ahead_ms := look_ahead_cfg0 config + IZR data_age_ms in
  let frametime := 1000 / IZR refresh_rate in
  let display_aspect_ratio :=
    IZR (display_resolution_w config) / IZR (display_resolution_h config) in
  let diag_to_vert_ratio :=
    sqrt (display_aspect_ratio * display_aspect_ratio + 1) in
  let half_fov_z_rads :=
    (display_fov config * PI / 180) / diag_to_vert_ratio / 2 in
  let half_fov_y_rads := half_fov_z_rads * display_aspect_ratio in
  let fov_half_widths := (tan half_fov_y_rads, tan half_fov_z_rads) in
  let fov_widths := (fst fov_half_widths * 2, snd fov_half_widths * 2) in
  let source_to_display_ratio :=
    (IZR width / IZR (display_resolution_w config),
     IZR height / IZR (display_resolution_h config)) in
  Some (mkUniformSet look_ahead_ms frametime half_fov_z_rads half_fov_y_rads
          fov_half_widths fov_widths source_to_display_ratio
          (lens_distance_ratio config, 0, 0)
          (if custom_banner_enabled config then 1 else 0)%Z
          (if sbs_enabled config then 1 else 0)%Z 0%Z 0%Z).

(** The half-widths as the spec describes them: the tangents of the half
    angles that the math library's [breezy_diagonal_to_cross_fovs] gives for
    the configured diagonal FOV and the resolution's aspect ratio. *)
Definition spec_fov_half_widths (config : ConfigR) : R * R :=
  let fovs := breezy_diagonal_to_cross_fovs (display_fov config * PI / 180)
    (IZR (display_resolution_w config) / IZR (display_resolution_h config)) in
  (tan (horizontal fovs / 2), tan (vertical fovs / 2)).

End Uniforms.

(** ** Thread start and shutdown (main, cleanup_*_thread) *)

Module Shutdown.

Inductive Which := Capture | Render.

Definition which_eqb (a b : Which) : bool :=
  match a, b with
  | Capture, Capture | Render, Render => true
  | _, _ => false
  end.

(** The thread-control fields shared by [CaptureThread] and [RenderThread]. *)
Record ThreadCtl := mkThreadCtl {
  running : bool;
  stop_requested : bool;
  thread_started : bool
}.

(** The calls to [pthread_create] that succeeded and to [pthread_join]. *)
Inductive Event := Created (k : Which) | Joined (k : Which).

(** [memset(thread, 0, ...)] and the flag settings of [init_*_thread]. *)
Definition init_ctl : ThreadCtl := mkThreadCtl false false false.

(** The join part of [cleanup_capture_thread] and [cleanup_render_thread]
    (both have the same guard). *)
Definition cleanup_thread (k : Which) (t : ThreadCtl) : ThreadCtl * list Event :=
  let t := mkThreadCtl (running t) true (thread_started t) in
  if thread_started t && running t then
    (mkThreadCtl false (stop_requested t) false, [Joined k])
  else (t, []).

(** The results of the fallible calls of [main], in the order it makes them. *)
Record Outcomes := mkOutcomes {
  init_frame_buffer_ok : bool;
  init_imu_reader_ok : bool;
  init_capture_thread_ok : bool;
  init_render_thread_ok : bool;
  create_capture_ok : bool;
  create_render_ok : bool
}.

(** The [cleanup:] label: [cleanup_render_thread] then [cleanup_capture_thread]. *)
Definition cleanup_label (cap ren : ThreadCtl) : list Event :=
  let cap := mkThreadCtl (running cap) true (thread_started cap) in
  let ren := mkThreadCtl (running ren) true (thread_started ren) in
  let '(_, e1) := cleanup_thread Render ren in
  let '(_, e2) := cleanup_thread Capture cap in
  e1 ++ e2.

(** The thread events of one run of [main] ([Renderer renderer = {0};]). *)
Definition main_events (o : Outcomes) : list Event :=
  if negb (init_frame_buffer_ok o) then [] else
  if negb (init_imu_reader_ok o) then [] else
  if negb (init_capture_thread_ok o) then [] else
  let cap := init_ctl in
  if negb (init_render_thread_ok o) then snd (cleanup_thread Capture cap) else
  let ren := init_ctl in
  let cap := mkThreadCtl true false (thread_started cap) in
  let ren := mkThreadCtl true false (thread_started ren) in
  if negb (create_capture_ok o) then cleanup_label cap ren else
  let cap := mkThreadCtl (running cap) (stop_requested cap) true in
  if negb (create_render_ok o) then
    Created Capture :: cleanup_label (mkThreadCtl (running cap) true true) ren
  else
  let ren := mkThreadCtl (running ren) (stop_requested ren) true in
  Created Capture :: Created Render :: cleanup_label cap ren.

(** Join discipline of an event trace, checked left to right: a join only of
    a thread created before and not yet joined. *)
Fixpoint joins_ok (created joined : Which -> bool) (tr : list Event) : bool :=
  match tr with
  | [] => true
  | Created k :: tr' =>
      joins_ok (fun k' => which_eqb k k' || created k') joined tr'
  | Joined k :: tr' =>
      created k && negb (joined k) &&
      joins_ok created (fun k' => which_eqb k k' || joined k') tr'
  end.

Definition count_joins (k : Which) (tr : list Event) : nat :=
  length (filter (fun e => match e with Joined k' => which_eqb k k'
                                     | _ => false end) tr).

End Shutdown.

(** ** More of the math library: FOV geometry, quaternions and vectors,
    display distance and smooth follow (breezy_math.c, breezy_math.h) *)

Module BreezyMathMore.
Import BreezyMath.
Local Open Scope R_scope.


(** A [float[3]] vector. *)
Record Vec3 := mkVec3 { v0 : R; v1 : R; v2 : R }.

Definition vdot (a b : Vec3) : R := v0 a * v0 b + v1 a * v1 b + v2 a * v2 b.

(** [breezy_normalize_vector3], in place: the new contents of [vector]. *)
Definition breezy_normalize_vector3 (vector : Vec3) : Vec3 :=
  let length := sqrt (v0 vector * v0 vector + v1 vector * v1 vector +
                      v2 vector * v2 vector) in
  if Rlt_dec 0 length then
    mkVec3 (v0 vector / length) (v1 vector / length) (v2 vector / length)
  else vector.

(** [breezy_scale_position_by_distance], in place. *)
Definition breezy_scale_position_by_distance (position : Vec3)
    (current_distance default_distance : R) : Vec3 :=
  let scale := current_distance / default_distance in
  mkVec3 (v0 position * scale) (v1 position * scale) (v2 position * scale).

Definition breezy_fov_flat_center_to_fov_edge_distance
    (center_distance fov_length : R) : R :=
  let half_fov_length := fov_length / 2 in
  sqrt (half_fov_length * half_fov_length + center_distance * center_distance).

Definition breezy_fov_flat_fov_edge_to_screen_center_distance
    (edge_distance screen_length : R) : R :=
  let half_screen_length := screen_length / 2 in
  sqrt (edge_distance * edge_distance - half_screen_length * half_screen_length).

Definition breezy_fov_flat_length_to_radians
    (fov_radians fov_length screen_edge_distance to_length : R) : R :=
  asin (to_length / 2 / screen_edge_distance) * 2.

Definition breezy_fov_flat_angle_to_length (fov_radians fov_length
    screen_distance to_angle_opposite to_angle_adjacent : R) : R :=
  to_angle_opposite / to_angle_adjacent * screen_distance.

(** C's [atan2(y, x)] on the reals (no signed zeros): the angle of the
    point [(x, y)] in [(-PI, PI]]. *)
Definition atan2 (y x : R) : R :=
  if Rlt_dec 0 x then atan (y / x)
  else if Rlt_dec x 0 then
    (if Rle_dec 0 y then atan (y / x) + PI else atan (y / x) - PI)
  else if Rlt_dec 0 y then PI / 2
  else if Rlt_dec y 0 then - (PI / 2)
  else 0.

Definition breezy_fov_curved_center_to_fov_edge_distance
    (center_distance fov_length : R) : R := center_distance.

Definition breezy_fov_curved_fov_edge_to_screen_center_distance
    (edge_distance screen_length : R) : R := edge_distance.

Definition breezy_fov_curved_length_to_radians
    (fov_radians fov_length screen_edge_distance to_length : R) : R :=
  fov_radians / fov_length * to_length.

Definition breezy_fov_curved_angle_to_length (fov_radians fov_length
    screen_distance to_angle_opposite to_angle_adjacent : R) : R :=
  fov_length / fov_radians * atan2 to_angle_opposite to_angle_adjacent.


(** [breezy_multiply_quaternions(result, q1, q2)], quaternions [x, y, z, w]. *)
Definition breezy_multiply_quaternions (q1 q2 : Quat) : Quat :=
  mkQuat
    (qw q1 * qx q2 + qx q1 * qw q2 + qy q1 * qz q2 - qz q1 * qy q2)
    (qw q1 * qy q2 - qx q1 * qz q2 + qy q1 * qw q2 + qz q1 * qx q2)
    (qw q1 * qz q2 + qx q1 * qy q2 - qy q1 * qx q2 + qz q1 * qw q2)
    (qw q1 * qw q2 - qx q1 * qx q2 - qy q1 * qy q2 - qz q1 * qz q2).

Definition breezy_conjugate_quaternion (q : Quat) : Quat :=
  mkQuat (- qx q) (- qy q) (- qz q) (qw q).

(** [breezy_apply_quaternion_to_vector(result, vector, quaternion)]. *)
Definition breezy_apply_quaternion_to_vector (vector : Vec3) (q : Quat) : Vec3 :=
  let t0 := 2 * (qy q * v2 vector - qz q * v1 vector) in
  let t1 := 2 * (qz q * v0 vector - qx q * v2 vector) in
  let t2 := 2 * (qx q * v1 vector - qy q * v0 vector) in
  mkVec3 (v0 vector + qw q * t0 + qy q * t2 - qz q * t1)
         (v1 vector + qw q * t1 + qz q * t0 - qx q * t2)
         (v2 vector + qw q * t2 + qx q * t1 - qy q * t0).

(** A vector as the pure quaternion [(v, 0)], and the vector part of a
    quaternion. *)
Definition pure (v : Vec3) : Quat := mkQuat (v0 v) (v1 v) (v2 v) 0.
Definition vec_part (q : Quat) : Vec3 := mkVec3 (qx q) (qy q) (qz q).

(** The rotation of [v] by [q] as a quaternion product: [q (v, 0) q*]. *)
Definition sandwich (q : Quat) (v : Vec3) : Quat :=
  breezy_multiply_quaternions (breezy_multiply_quaternions q (pure v))
    (breezy_conjugate_quaternion q).

Definition breezy_adjust_display_distance_for_monitor_size (base_distance
    focused_width focused_height fov_width fov_height : R) : R :=
  let ratio_w := focused_width / fov_width in
  let ratio_h := focused_height / fov_height in
  let focused_monitor_size_adjustment :=
    if Rlt_dec ratio_h ratio_w then ratio_w else ratio_h in
  base_distance / focused_monitor_size_adjustment.



End BreezyMathMore.

(** ** Start and cleanup of the IMU reader (init_imu_reader, cleanup_imu_reader) *)

Module ImuReaderLife.
Import ImuReader.

(** The results of the system calls made by [init_imu_reader]:
    [pthread_mutex_init], [open] (a descriptor, or a negative value),
    [fstat], and [mmap] (the mapped bytes, or [None] for [MAP_FAILED]). *)
Record InitEnv := mkInitEnv {
  mutex_init_ok : bool;
  open_result : Z;
  fstat_ok : bool;
  mmap_result : option (list Z)
}.

(** [init_imu_reader(reader)]: the return value, the reader, and the
    descriptors passed to [close].  After [MAP_FAILED] the pointer is
    non-NULL (nothing is mapped) and [shm_fd] is [-1]. *)
Definition init_imu_reader (env : InitEnv) : Z * IMUReader * list Z :=
  let reader := mkIMUReader (-1) false [] imu_zero in
  if negb (mutex_init_ok env) then (-1, reader, []) else
  let fd := open_result env in
  let reader := mkIMUReader fd false [] imu_zero in
  if fd <? 0 then (-1, reader, []) else
  if negb (fstat_ok env) then (-1, mkIMUReader (-1) false [] imu_zero, [fd]) else
  match mmap_result env with
  | None => (-1, mkIMUReader (-1) true [] imu_zero, [fd])
  | Some data => (0, mkIMUReader fd true data imu_zero, [])
  end.

(** [cleanup_imu_reader(reader)]: the reader and the descriptors closed. *)
Definition cleanup_imu_reader (r : IMUReader) : IMUReader * list Z :=
  if shm_mapped r && (0 <=? shm_fd r) then
    (mkIMUReader (-1) false [] (latest r), [shm_fd r])
  else (r, []).

End ImuReaderLife.

(** ** Frame-buffer start (init_frame_buffer) *)

Module FrameBufferLife.
Import FrameRing.

(** The allocation loop of [init_frame_buffer]: [mallocs] are the results
    of [malloc] ([None] for NULL) and [clocks] the [clock_gettime] readings,
    in order; [frames] and [ts] are filled so far.  The result is the frame
    pointers and timestamps on success, and the pointers passed to [free]. *)
Fixpoint alloc_frames (k : nat) (mallocs : list (option Z)) (clocks : list Z)
    (frames ts : list Z) : option (list Z * list Z) * list Z :=
  match k with
  | O => (Some (frames, ts), [])
  | S k' =>
      match mallocs with
      | Some p :: ms =>
          alloc_frames k' ms (tl clocks) (frames ++ [p]) (ts ++ [hd 0 clocks])
      | _ => (None, frames)
      end
  end.

(** [init_frame_buffer(fb, width, height)]: the return value, the frame
    buffer and its frame pointers on success (after a failure [main]
    returns without using it), and the pointers freed. *)
Definition init_frame_buffer (width height : Z) (mallocs : list (option Z))
    (clocks : list Z) : Z * option (FrameBuffer * list Z) * list Z :=
  match alloc_frames (Z.to_nat RING_BUFFER_SIZE) mallocs clocks [] [] with
  | (Some (frames, ts), freed) =>
      (0, Some (mkFrameBuffer width height 0 0 ts 0, frames), freed)
  | (None, freed) => (-1, None, freed)
  end.

(** The pointers returned by the leading successful calls among the first
    [k] results of [malloc]. *)
Fixpoint malloc_prefix (k : nat) (mallocs : list (option Z)) : list Z :=
  match k, mallocs with
  | S k', Some p :: ms => p :: malloc_prefix k' ms
  | _, _ => []
  end.

(** The number of calls [write_frame] accepts in a run. *)
Fixpoint accepted_writes (fb : FrameBuffer) (ws : list (Z * Z * Z)) : Z :=
  match ws with
  | [] => 0
  | (w, h, _) :: ws' =>
      (if (w =? width fb) && (h =? height fb) then 1 else 0) +
      accepted_writes fb ws'
  end.

End FrameBufferLife.

(** ** Runs of the DMA-BUF slot: capture publishes and render takes *)

Module HandoffRun.
Import Handoff.

(** A publish by an iteration of [capture_thread_func] whose export
    succeeded (the capture thread's [fb_id] and the exported descriptor,
    format, stride and modifier), or the take of a [render_frame] call. *)
Inductive HEvent :=
  | Publish (fb_id dmabuf_fd format stride modifier : Z)
  | Take.

(** The slot after a run, the descriptors closed by the capture thread, and
    the descriptors handed to [import_dmabuf_as_texture] by the render
    thread. *)
Fixpoint handoff_run (s : Slot) (evs : list HEvent) : Slot * list Z * list Z :=
  match evs with
  | [] => (s, [], [])
  | Publish fb fd format stride modifier :: evs' =>
      let '(s1, c1) := capture_publish s fb fd format stride modifier in
      let '(s2, c2, t2) := handoff_run s1 evs' in
      (s2, c1 ++ c2, t2)
  | Take :: evs' =>
      let '(fd, s1) := render_take s in
      let '(s2, c2, t2) := handoff_run s1 evs' in
      (s2, c2, (if 0 <=? fd then [fd] else []) ++ t2)
  end.

(** The descriptor part of [cleanup_dmabuf_texture] (opengl_context.c),
    called by [cleanup_render_thread]: the slot and the descriptors closed. *)
Definition cleanup_dmabuf_slot (s : Slot) : Slot * list Z :=
  if 0 <=? current_dmabuf_fd s then
    (mkSlot (-1) (current_fb_id s) (current_format s) (current_stride s)
       (current_modifier s), [current_dmabuf_fd s])
  else (s, []).

(** The descriptor a slot holds, if any. *)
Definition held (s : Slot) : list Z :=
  if 0 <=? current_dmabuf_fd s then [current_dmabuf_fd s] else [].

Fixpoint published (evs : list HEvent) : list Z :=
  match evs with
  | [] => []
  | Publish _ fd _ _ _ :: evs' => fd :: published evs'
  | Take :: evs' => published evs'
  end.

Fixpoint published_fb_ids (evs : list HEvent) : list Z :=
  match evs with
  | [] => []
  | Publish fb _ _ _ _ :: evs' => fb :: published_fb_ids evs'
  | Take :: evs' => published_fb_ids evs'
  end.

(** Neighbouring elements differ. *)
Fixpoint adjacent_distinct (l : list Z) : bool :=
  match l with
  | a :: (b :: _) as l' => negb (a =? b) && adjacent_distinct l'
  | _ => true
  end.

End HandoffRun.

(** ** DMA-BUF export of the capture thread (drm_capture.c) *)

Module DrmExport.

Definition DRM_FORMAT_XRGB8888 : Z := 875713112.        (* 0x34325258 *)
Definition DRM_FORMAT_MOD_LINEAR : Z := 0.
Definition DRM_FORMAT_MOD_INVALID : Z := 72057594037927935. (* 0x00ffffffffffffff *)

(** The [drmModeFB] fields used. *)
Record FBInfo := mkFBInfo {
  fb_handle : Z;
  fb_width : Z;
  fb_height : Z;
  fb_pitch : Z
}.

(** The DRM fields of [CaptureThread]; [fb_info] is [None] for NULL. *)
Record CapState := mkCapState {
  drm_fd : Z;
  cap_fb_id : Z;
  fb_info : option FBInfo;
  cap_width : Z;
  cap_height : Z;
  cap_fb_handle : Z
}.

(** The kernel's answers during one call: [drmModeGetCrtc] (the CRTC's
    [buffer_id], or [None] for NULL), [drmModeGetFB] for a new buffer, the
    PRIME export ([None] when it fails), and the last [IN_FORMAT] and
    [IN_MODIFIER] property values met in the property loop, if any
    (already cast to [uint32_t]). *)
Record ExportEnv := mkExportEnv {
  crtc_buffer_id : option Z;
  get_fb : option FBInfo;
  prime_fd : option Z;
  prop_format : option Z;
  prop_modifier : option Z
}.

(** [export_drm_framebuffer_to_dmabuf(thread, &fd, &format, &stride,
    &modifier)]; [format0] and [modifier0] are the values the caller's
    [format] and [modifier] variables hold before the call.  The result is
    the return value, the thread's DRM fields, and on success the outputs
    (descriptor, format, stride, modifier). *)
Definition export_drm_framebuffer_to_dmabuf (t : CapState) (env : ExportEnv)
    (format0 modifier0 : Z) : Z * CapState * option (Z * Z * Z * Z) :=
  if (drm_fd t <? 0) || negb (match fb_info t with Some _ => true | None => false end)
  then (-1, t, None) else
  match crtc_buffer_id env with
  | None => (-1, t, None)
  | Some buffer_id =>
      let t :=
        if negb (buffer_id =? cap_fb_id t) then
          match get_fb env with
          | Some info => mkCapState (drm_fd t) buffer_id (Some info)
                           (fb_width info) (fb_height info) (fb_handle info)
          | None => mkCapState (drm_fd t) buffer_id None
                      (cap_width t) (cap_height t) (cap_fb_handle t)
          end
        else t in
      match fb_info t with
      | None => (-1, t, None)
      | Some info =>
          match prime_fd env with
          | None => (-1, t, None)
          | Some fd =>
              if fd <? 0 then (-1, t, None) else
              let format := match prop_format env with
                            | Some f => f | None => format0 end in
              let modifier := match prop_modifier env with
                              | Some m => m | None => modifier0 end in
              let format := if format =? 0 then DRM_FORMAT_XRGB8888 else format in
              let modifier :=
                if (modifier =? 0) || (modifier =? DRM_FORMAT_MOD_INVALID)
                then DRM_FORMAT_MOD_LINEAR else modifier in
              (0, t, Some (fd, format, fb_pitch info, modifier))
          end
      end
  end.

(** Successive calls of the capture loop: the return values and the final
    thread state. *)
Fixpoint export_run (t : CapState) (envs : list (ExportEnv * Z * Z))
    : list Z * CapState :=
  match envs with
  | [] => ([], t)
  | (env, f0, m0) :: envs' =>
      let '(r, t1, _) := export_drm_framebuffer_to_dmabuf t env f0 m0 in
      let '(rs, t2) := export_run t1 envs' in
      (r :: rs, t2)
  end.

End DrmExport.

(** ** The periodic device-config refresh of render_thread_func *)

Module ConfigRefresh.

(** [current_time_ms]: 0 when [clock_gettime(CLOCK_REALTIME)] fails,
    otherwise [tv_sec * 1000 + tv_nsec / 1000000] in [uint64_t]. *)
Definition current_time_ms (clock : option (Z * Z)) : Z :=
  match clock with
  | Some (tv_sec, tv_nsec) => (tv_sec * 1000 + tv_nsec / 1000000) mod 2 ^ 64
  | None => 0
  end.

(** The condition [last_config_update_ms == 0 ||
    current_time_ms - last_config_update_ms > 1000], in [uint64_t]. *)
Definition config_refresh_due (last_config_update_ms current_time_ms : Z) : bool :=
  (last_config_update_ms =? 0) ||
  (1000 <? (current_time_ms - last_config_update_ms) mod 2 ^ 64).

End ConfigRefresh.

(** ** The exit status of main and its cleanup calls *)

Module MainRun.
Import Shutdown.

Inductive Component := FrameBufferC | ImuReaderC | CaptureThreadC | RenderThreadC.

(** One run of [main]: its return value and the [cleanup_*] calls it makes,
    in order ([cleanup_frame_buffer], [cleanup_imu_reader],
    [cleanup_capture_thread], [cleanup_render_thread]). *)
Definition main_run (argc : Z) (o : Outcomes) : Z * list Component :=
  if argc <? 5 then (1, []) else
  if negb (init_frame_buffer_ok o) then (1, []) else
  if negb (init_imu_reader_ok o) then (1, [FrameBufferC]) else
  if negb (init_capture_thread_ok o) then (1, [ImuReaderC; FrameBufferC]) else
  if negb (init_render_thread_ok o) then
    (1, [CaptureThreadC; ImuReaderC; FrameBufferC])
  else
  (* both [pthread_create] outcomes lead to the [cleanup:] label *)
  (0, [RenderThreadC; CaptureThreadC; ImuReaderC; FrameBufferC]).

(** The components whose [init_*] call succeeded, in the order of the calls. *)
Definition initialized (argc : Z) (o : Outcomes) : list Component :=
  if argc <? 5 then [] else
  if negb (init_frame_buffer_ok o) then [] else
  if negb (init_imu_reader_ok o) then [FrameBufferC] else
  if negb (init_capture_thread_ok o) then [FrameBufferC; ImuReaderC] else
  if negb (init_render_thread_ok o) then [FrameBufferC; ImuReaderC; CaptureThreadC]
  else [FrameBufferC; ImuReaderC; CaptureThreadC; RenderThreadC].

Definition count_created (k : Which) (tr : list Event) : nat :=
  length (filter (fun e => match e with Created k' => which_eqb k k'
                                     | _ => false end) tr).

End MainRun.

(** ** Logging (logging.c) *)

Module Logging.
Import String.
Local Open Scope string_scope.

(** [log_file] (a handle, [None] for NULL) and [log_initialized]. *)
Record LogState := mkLogState {
  log_file : option Z;
  log_initialized : bool
}.

(** The effects on the file system and the output streams; message texts
    are left out. *)
Inductive LogEffect :=
  | Mkdir (path : String.string)
  | Fopen (path : String.string)
  | Fclose (h : Z)
  | WriteFile (h : Z)
  | WriteStderr.

(** The environment of [log_init]: [getenv("XDG_STATE_HOME")],
    [getenv("HOME")], whether [stat] finds the directory, whether [mkdir]
    succeeds or fails with [EEXIST], and the result of [fopen]. *)
Record LogEnv := mkLogEnv {
  xdg_state_home : option String.string;
  home : option String.string;
  dir_exists : bool;
  mkdir_ok_or_exists : bool;
  fopen_result : option Z
}.

(** [snprintf(buf, 512, ...)] keeps at most 511 characters. *)
Definition snprintf512 (s : String.string) : String.string :=
  String.substring 0 511 s.

(** [do_log]: to the log file when initialized and open, else to [stderr]. *)
Definition do_log (st : LogState) : list LogEffect :=
  match log_initialized st, log_file st with
  | true, Some h => [WriteFile h]
  | _, _ => [WriteStderr]
  end.

Definition log_init (env : LogEnv) (st : LogState) : Z * LogState * list LogEffect :=
  if log_initialized st then (0, st, []) else
  let dir :=
    match xdg_state_home env with
    | Some x => if String.eqb x EmptyString then None else Some (snprintf512 (x ++ "/breezy_desktop"))
    | None => None
    end in
  let dir :=
    match dir with
    | Some d => Some d
    | None =>
        match home env with
        | Some hm => Some (snprintf512 (hm ++ "/.local/state/breezy_desktop"))
        | None => None
        end
    end in
  match dir with
  | None => (-1, st, [WriteStderr])
  | Some log_dir_path =>
      let mk := if dir_exists env then [] else [Mkdir log_dir_path] in
      if negb (dir_exists env) && negb (mkdir_ok_or_exists env) then
        (-1, st, app mk [WriteStderr])
      else
      let log_file_path := snprintf512 (log_dir_path ++ "/renderer.log") in
      match fopen_result env with
      | None => (-1, mkLogState None (log_initialized st),
                 app mk [Fopen log_file_path; WriteStderr])
      | Some h =>
          let st' := mkLogState (Some h) true in
          (0, st', app mk (Fopen log_file_path :: do_log st'))
      end
  end.

Definition log_cleanup (st : LogState) : LogState * list LogEffect :=
  match log_file st with
  | Some h => (mkLogState None false, app (do_log st) [Fclose h])
  | None => (mkLogState None false, [])
  end.

End Logging.

(** * Proofs *)

Module BytesFacts.
Import Bytes.

Lemma replace_nth_length i v l : length (replace_nth i v l) = length l.
Proof.
  revert i; induction l as [|h t IH]; intros [|i]; simpl; auto.
Qed.

Lemma nth_replace_nth_same i v l :
  (i < length l)%nat -> nth i (replace_nth i v l) 0 = v.
Proof.
  revert i; induction l as [|h t IH]; intros [|i] Hi; simpl in *; try lia; auto.
  apply IH; lia.
Qed.

Lemma nth_replace_nth_other i j v l :
  i <> j -> nth j (replace_nth i v l) 0 = nth j l 0.
Proof.
  revert i j; induction l as [|h t IH]; intros [|i] [|j] Hij; simpl; auto.
  congruence.
Qed.

End BytesFacts.

Module ImuReaderFacts.
Import Bytes BytesFacts ImuReader.

(** Equalities of XOR expressions, bit by bit. *)
Ltac xor_solve :=
  apply Z.bits_inj'; intros ? ?; rewrite ?Z.lxor_spec;
  repeat match goal with |- context [Z.testbit ?a ?n] =>
    destruct (Z.testbit a n) end; reflexivity.

Lemma parity_loop_acc d i n p :
  parity_loop d i n p = Z.lxor p (parity_loop d i n 0).
Proof.
  revert i p; induction n as [|n IH]; intros i p; simpl.
  - now rewrite Z.lxor_0_r.
  - rewrite (IH _ (Z.lxor p _)), (IH _ (nth i d 0)). xor_solve.
Qed.

Lemma parity_loop_agree d1 d2 i n p :
  (forall j, (i <= j < i + n)%nat -> nth j d1 0 = nth j d2 0) ->
  parity_loop d1 i n p = parity_loop d2 i n p.
Proof.
  revert i p; induction n as [|n IH]; intros i p H; simpl; auto.
  rewrite (H i) by lia. apply IH. intros j Hj; apply H; lia.
Qed.

Lemma parity_loop_replace d i n p k v :
  (i <= k < i + n)%nat -> (k < length d)%nat ->
  parity_loop (replace_nth k v d) i n p =
  Z.lxor (parity_loop d i n p) (Z.lxor (nth k d 0) v).
Proof.
  revert i p; induction n as [|n IH]; intros i p Hk Hl; simpl; [lia|].
  destruct (Nat.eq_dec i k) as [->|Hne].
  - rewrite nth_replace_nth_same by assumption.
    rewrite (parity_loop_agree (replace_nth k v d) d (S k) n).
    + rewrite (parity_loop_acc d (S k) n (Z.lxor p v)),
              (parity_loop_acc d (S k) n (Z.lxor p (nth k d 0))).
      xor_solve.
    + intros j Hj; apply nth_replace_nth_other; lia.
  - rewrite nth_replace_nth_other by congruence. apply IH; lia.
Qed.

Lemma read_latest_imu_valid r :
  valid (fst (read_latest_imu r)) = reader_ready r && accepted (shm r).
Proof.
  unfold read_latest_imu, accepted.
  destruct (reader_ready r), (nth OFFSET_ENABLED (shm r) 0 =? 0),
    (calculate_parity (shm r) =? nth OFFSET_IMU_PARITY_BYTE (shm r) 0);
    reflexivity.
Qed.

Lemma read_device_config_valid r :
  cfg_valid (read_device_config r) = reader_ready r && accepted (shm r).
Proof.
  unfold read_device_config, accepted.
  destruct (reader_ready r), (nth OFFSET_ENABLED (shm r) 0 =? 0),
    (calculate_parity (shm r) =? nth OFFSET_IMU_PARITY_BYTE (shm r) 0);
    reflexivity.
Qed.

Lemma accepted_replace_in_window d k v :
  (OFFSET_IMU_PARITY_BYTE < length d)%nat ->
  (OFFSET_EPOCH_MS <= k < OFFSET_IMU_PARITY_BYTE)%nat ->
  v <> nth k d 0 ->
  accepted d = true -> accepted (replace_nth k v d) = false.
Proof.
  unfold accepted, calculate_parity, OFFSET_IMU_PARITY_BYTE, OFFSET_EPOCH_MS,
    OFFSET_ENABLED.
  intros Hl Hk Hv Hacc.
  apply andb_true_iff in Hacc as [_ Hp]. apply Z.eqb_eq in Hp.
  rewrite parity_loop_replace by (simpl; lia).
  rewrite nth_replace_nth_other by lia. rewrite Hp.
  apply andb_false_iff; right. apply Z.eqb_neq. intros E.
  assert (Z.lxor (nth k d 0) v = 0) as E0.
  { apply (f_equal (Z.lxor (nth 185 d 0))) in E.
    rewrite <- Z.lxor_assoc, Z.lxor_nilpotent, Z.lxor_0_l in E.
    rewrite nth_replace_nth_other, Z.lxor_nilpotent in E by lia. exact E. }
  rewrite Z.lxor_eq_0_iff in E0. congruence.
Qed.

End ImuReaderFacts.

Module ImuReaderClaims.
Import Bytes BytesFacts ImuReader ImuReaderFacts.

Lemma accepted_spec d :
  accepted d = true <->
  nth OFFSET_ENABLED d 0 <> 0 /\
  calculate_parity d = nth OFFSET_IMU_PARITY_BYTE d 0.
Proof.
  unfold accepted. rewrite andb_true_iff, negb_true_iff, Z.eqb_neq, Z.eqb_eq.
  tauto.
Qed.

Lemma read_latest_imu_accepted r :
  reader_ready r = true -> accepted (shm r) = true ->
  fst (read_latest_imu r) =
  mkIMUData (slice OFFSET_POSE_ORIENTATION 64 (shm r))
    (slice OFFSET_POSE_POSITION 12 (shm r))
    (Z.lor (Z.shiftl (le_decode (slice (OFFSET_EPOCH_MS + 4) 4 (shm r))) 32)
       (le_decode (slice OFFSET_EPOCH_MS 4 (shm r)))) true.
Proof.
  intros Hr Ha. unfold accepted in Ha. apply andb_true_iff in Ha as [He Hp].
  unfold read_latest_imu. rewrite Hr, He, Hp. reflexivity.
Qed.

(** C1: both readers return a valid sample exactly when the reader is mapped,
    the enabled byte (offset 1) is non-zero and the XOR of the bytes
    [113, 185) equals the trailer byte at 185; changing any one byte of
    [113, 185) of an accepted buffer makes both reads return an invalid
    sample. *)
Theorem imu_parity_gate (r : IMUReader) (k : nat) (v : Z)
  (Hlen : (OFFSET_IMU_PARITY_BYTE < length (shm r))%nat)
  (Hk : (OFFSET_EPOCH_MS <= k < OFFSET_IMU_PARITY_BYTE)%nat)
  (Hv : v <> nth k (shm r) 0) :
  (valid (fst (read_latest_imu r)) = true <->
     reader_ready r = true /\ nth OFFSET_ENABLED (shm r) 0 <> 0 /\
     calculate_parity (shm r) = nth OFFSET_IMU_PARITY_BYTE (shm r) 0) /\
  (cfg_valid (read_device_config r) = true <->
     reader_ready r = true /\ nth OFFSET_ENABLED (shm r) 0 <> 0 /\
     calculate_parity (shm r) = nth OFFSET_IMU_PARITY_BYTE (shm r) 0) /\
  (nth OFFSET_ENABLED (shm r) 0 <> 0 ->
   calculate_parity (shm r) = nth OFFSET_IMU_PARITY_BYTE (shm r) 0 ->
   valid (fst (read_latest_imu (with_shm r (replace_nth k v (shm r))))) = false /\
   cfg_valid (read_device_config (with_shm r (replace_nth k v (shm r)))) = false).
Proof.
  rewrite read_latest_imu_valid, read_device_config_valid,
    !read_latest_imu_valid, !read_device_config_valid.
  rewrite andb_true_iff, <- accepted_spec.
  split; [tauto|]. split; [tauto|].
  intros He Hp.
  assert (accepted (shm r) = true) as Ha by (apply accepted_spec; auto).
  unfold with_shm; simpl.
  rewrite (accepted_replace_in_window (shm r) k v Hlen Hk Hv Ha), andb_false_r.
  split; reflexivity.
Qed.

Lemma imu_parity_gate_witness :
  let r := mkIMUReader 3 true (0 :: 1 :: repeat 0 184) imu_zero in
  (OFFSET_IMU_PARITY_BYTE < length (shm r))%nat /\
  valid (fst (read_latest_imu r)) = true /\
  valid (fst (read_latest_imu (with_shm r (replace_nth 113 1 (shm r))))) = false.
Proof.
  intros r.
  assert (Hl : (OFFSET_IMU_PARITY_BYTE < length (shm r))%nat)
    by (apply Nat.ltb_lt; reflexivity).
  destruct (imu_parity_gate r 113 1 Hl ltac:(unfold OFFSET_EPOCH_MS, OFFSET_IMU_PARITY_BYTE; lia)
              ltac:(vm_compute; discriminate)) as [H1 [_ H3]].
  split; [exact Hl|]. split.
  - apply H1. vm_compute. repeat split; discriminate.
  - apply H3; vm_compute; [discriminate | reflexivity].
Defined.

(** C2: when [read_latest_imu] rejects a read it returns the zeroed sample
    and leaves the reader, and so its cached [latest] sample, unchanged. *)
Theorem read_reject_keeps_latest (r : IMUReader)
  (Hrej : valid (fst (read_latest_imu r)) = false) :
  snd (read_latest_imu r) = r /\
  latest (snd (read_latest_imu r)) = latest r /\
  fst (read_latest_imu r) = imu_zero.
Proof.
  revert Hrej. unfold read_latest_imu.
  destruct (reader_ready r), (nth OFFSET_ENABLED (shm r) 0 =? 0),
    (calculate_parity (shm r) =? nth OFFSET_IMU_PARITY_BYTE (shm r) 0);
    simpl; intros H; try discriminate; auto.
Qed.

Lemma read_reject_keeps_latest_witness :
  let r := mkIMUReader 3 true (repeat 0 186)
             (mkIMUData (repeat 7 64) (repeat 7 12) 42 true) in
  valid (fst (read_latest_imu r)) = false /\
  latest (snd (read_latest_imu r)) = latest r.
Proof.
  intros r.
  assert (H : valid (fst (read_latest_imu r)) = false) by reflexivity.
  split; [exact H | apply (read_reject_keeps_latest r H)].
Defined.

(** C10: [calculate_parity] only reads the bytes [113, 185): buffers that
    agree there have equal parity; so changing pose-position bytes
    [101, 113) of an accepted buffer keeps it accepted, and the read returns
    the changed position bytes. *)
Theorem parity_ignores_pose_position (d1 d2 : list Z)
  (Hagree : forall j, (OFFSET_EPOCH_MS <= j < OFFSET_IMU_PARITY_BYTE)%nat ->
            nth j d1 0 = nth j d2 0)
  (r : IMUReader) (k : nat) (v : Z)
  (Hready : reader_ready r = true) (Hacc : accepted (shm r) = true)
  (Hk : (OFFSET_POSE_POSITION <= k < OFFSET_EPOCH_MS)%nat) :
  calculate_parity d1 = calculate_parity d2 /\
  valid (fst (read_latest_imu (with_shm r (replace_nth k v (shm r))))) = true /\
  position (fst (read_latest_imu (with_shm r (replace_nth k v (shm r))))) =
    slice OFFSET_POSE_POSITION 12 (replace_nth k v (shm r)).
Proof.
  assert (Hpar : forall e1 e2, (forall j, (OFFSET_EPOCH_MS <= j < OFFSET_IMU_PARITY_BYTE)%nat ->
            nth j e1 0 = nth j e2 0) -> calculate_parity e1 = calculate_parity e2).
  { intros e1 e2 H. unfold calculate_parity. apply parity_loop_agree.
    intros j Hj; apply H. unfold OFFSET_EPOCH_MS, OFFSET_IMU_PARITY_BYTE in *; lia. }
  split; [now apply Hpar|].
  unfold OFFSET_POSE_POSITION, OFFSET_EPOCH_MS in Hk.
  assert (Ha' : accepted (replace_nth k v (shm r)) = true).
  { apply accepted_spec in Hacc as [He Hp]. apply accepted_spec.
    unfold OFFSET_ENABLED, OFFSET_IMU_PARITY_BYTE in *.
    rewrite !nth_replace_nth_other by lia. split; [exact He|].
    rewrite <- Hp. apply Hpar. intros j Hj.
    unfold OFFSET_EPOCH_MS, OFFSET_IMU_PARITY_BYTE in Hj.
    apply nth_replace_nth_other; lia. }
  rewrite read_latest_imu_accepted; [split; reflexivity | | exact Ha'].
  exact Hready.
Qed.

Lemma parity_ignores_pose_position_witness :
  let d := 0 :: 1 :: repeat 0 184 in
  let r := mkIMUReader 3 true d imu_zero in
  calculate_parity d = calculate_parity (replace_nth 101 9 d) /\
  valid (fst (read_latest_imu (with_shm r (replace_nth 101 9 d)))) = true.
Proof.
  intros d r.
  destruct (parity_ignores_pose_position d (replace_nth 101 9 d)
    ltac:(intros j Hj; symmetry; apply nth_replace_nth_other;
          unfold OFFSET_EPOCH_MS, OFFSET_IMU_PARITY_BYTE in Hj; lia)
    r 101 9 eq_refl eq_refl
    ltac:(unfold OFFSET_POSE_POSITION, OFFSET_EPOCH_MS; lia)) as [H1 [H2 _]].
  split; assumption.
Defined.

End ImuReaderClaims.

Module FrameRingClaims.
Import Bytes BytesFacts FrameRing.

Lemma write_frame_dims fb w h now :
  width (snd (write_frame fb w h now)) = width fb /\
  height (snd (write_frame fb w h now)) = height fb.
Proof.
  unfold write_frame. destruct (_ || _); simpl; auto.
Qed.

Lemma write_frame_ring_ok fb w h now :
  ring_ok fb -> ring_ok (snd (write_frame fb w h now)).
Proof.
  unfold write_frame, ring_ok, RING_BUFFER_SIZE.
  destruct (_ || _); simpl; auto.
  intros [_ Hl]. rewrite replace_nth_length. split; [|exact Hl].
  apply Z.mod_pos_bound; lia.
Qed.

Lemma write_frame_rejected fb w h now :
  w <> width fb \/ h <> height fb -> snd (write_frame fb w h now) = fb.
Proof.
  intros H. unfold write_frame.
  destruct H as [H|H]; apply Z.eqb_neq in H; rewrite H; simpl;
    [reflexivity | now rewrite orb_true_r].
Qed.

Lemma write_frame_then_read fb now :
  ring_ok fb ->
  read_latest_frame (snd (write_frame fb (width fb) (height fb) now)) = (true, now).
Proof.
  unfold write_frame, read_latest_frame, ring_ok, RING_BUFFER_SIZE.
  rewrite !Z.eqb_refl. simpl. intros [_ Hl].
  rewrite nth_replace_nth_same; [reflexivity|].
  rewrite Hl. pose proof (Z.mod_pos_bound (write_index fb + 1) 3).
  simpl. lia.
Qed.

Lemma write_frames_app fb ws1 ws2 :
  write_frames fb (ws1 ++ ws2) = write_frames (write_frames fb ws1) ws2.
Proof.
  revert fb; induction ws1 as [|[[w h] now] ws1 IH]; intros fb; simpl; auto.
Qed.

Lemma write_frames_dims fb ws :
  width (write_frames fb ws) = width fb /\ height (write_frames fb ws) = height fb.
Proof.
  revert fb; induction ws as [|[[w h] now] ws IH]; intros fb; simpl; auto.
  destruct (IH (snd (write_frame fb w h now))) as [H1 H2].
  destruct (write_frame_dims fb w h now) as [H3 H4]. split; congruence.
Qed.

Lemma write_frames_ring_ok fb ws : ring_ok fb -> ring_ok (write_frames fb ws).
Proof.
  revert fb; induction ws as [|[[w h] now] ws IH]; intros fb Hok; simpl; auto.
  apply IH, write_frame_ring_ok, Hok.
Qed.

Lemma write_frames_rejected fb ws :
  (forall w h now, In (w, h, now) ws -> w <> width fb \/ h <> height fb) ->
  write_frames fb ws = fb.
Proof.
  revert fb; induction ws as [|[[w h] now] ws IH]; intros fb H; simpl; auto.
  rewrite write_frame_rejected by (apply (H w h now); left; reflexivity).
  apply IH. intros w' h' n' Hin. apply (H w' h' n'); right; exact Hin.
Qed.

(** C3: after any run of [write_frame] calls, [read_latest_frame] returns
    the timestamp stored by the most recent successful [write_frame]
    (later calls with the wrong size change nothing); earlier frames are
    never returned. *)
Theorem latest_frame_is_last_write (fb : FrameBuffer)
  (pre post : list (Z * Z * Z)) (t : Z)
  (Hok : ring_ok fb)
  (Hpost : forall w h now, In (w, h, now) post ->
           w <> width fb \/ h <> height fb) :
  read_latest_frame (write_frames fb (pre ++ (width fb, height fb, t) :: post))
  = (true, t).
Proof.
  rewrite write_frames_app. simpl.
  set (fb1 := write_frames fb pre).
  destruct (write_frames_dims fb pre) as [Hw Hh]. fold fb1 in Hw, Hh.
  assert (Hok1 : ring_ok fb1) by (apply write_frames_ring_ok, Hok).
  rewrite <- Hw, <- Hh.
  destruct (write_frame_dims fb1 (width fb1) (height fb1) t) as [Hw2 Hh2].
  rewrite write_frames_rejected.
  - apply write_frame_then_read, Hok1.
  - intros w h now Hin. rewrite Hw2, Hh2, Hw, Hh. apply (Hpost w h now Hin).
Qed.

Lemma latest_frame_is_last_write_witness :
  let fb := mkFrameBuffer 1920 1080 0 0 [0; 0; 0] 0 in
  read_latest_frame (write_frames fb [(1920, 1080, 100); (1920, 1080, 200)])
  = (true, 200).
Proof.
  intros fb.
  apply (latest_frame_is_last_write fb [(1920, 1080, 100)] [] 200).
  - unfold ring_ok, RING_BUFFER_SIZE; simpl; lia.
  - intros w h now [].
Defined.

End FrameRingClaims.

Module HandoffClaims.
Import Handoff.

(** C4 (code defect): a descriptor still unconsumed in the slot is
    overwritten without being closed when the capture thread's [fb_id] has
    not changed.  Starting from the slot holding descriptor 5 for
    framebuffer 42, publishing descriptor 6 for the same framebuffer closes
    nothing, and descriptor 5 is no longer held by the slot; three exports
    of one framebuffer from an empty slot close none of the first two. *)
Theorem capture_publish_drops_unconsumed_fd :
  capture_publish (mkSlot 5 42 0 0 0) 42 6 0 0 0 = (mkSlot 6 42 0 0 0, []) /\
  capture_run (mkSlot (-1) 0 0 0 0) 42 [5; 6; 7] = (mkSlot 7 42 0 0 0, []).
Proof. split; reflexivity. Qed.

End HandoffClaims.

Module ShutdownClaims.
Import Shutdown.

(** C9: in every run of [main] (any combination of failing initialisation
    and failing [pthread_create]) each [pthread_join] is of a thread whose
    [pthread_create] succeeded earlier, and each thread is joined at most
    once; from any thread state, [cleanup_*_thread] joins only when
    [thread_started] is set, and a second cleanup joins nothing. *)
Theorem shutdown_join_discipline :
  (forall o : Outcomes,
     joins_ok (fun _ => false) (fun _ => false) (main_events o) = true /\
     (count_joins Capture (main_events o) <= 1)%nat /\
     (count_joins Render (main_events o) <= 1)%nat) /\
  (forall (k : Which) (t : ThreadCtl),
     (In (Joined k) (snd (cleanup_thread k t)) -> thread_started t = true) /\
     snd (cleanup_thread k (fst (cleanup_thread k t))) = []).
Proof.
  split.
  - intros [[] [] [] [] [] []]; vm_compute; repeat split; lia.
  - intros k [[] [] []]; simpl; split; try reflexivity; intros H;
      try contradiction; reflexivity.
Qed.

End ShutdownClaims.

Module BreezyMathClaims.
Import BreezyMath.
Local Open Scope R_scope.

(** C6: the look-ahead is the data age [max(now - imu_ts, 0)] plus the
    override when it is non-negative and the constant otherwise; with
    [imu_ts = 1000], [now = 1500], [constant = 10] it is 510 for
    [override = -1] and 505 for [override = 5]. *)
Theorem look_ahead_ms_spec (imu_ts now : Z) (constant override : R) :
  breezy_calculate_look_ahead_ms imu_ts now constant override =
    IZR (Z.max (now - imu_ts) 0) +
    (if Rle_dec 0 override then override else constant) /\
  breezy_calculate_look_ahead_ms 1000 1500 10 (-1) = 510 /\
  breezy_calculate_look_ahead_ms 1000 1500 10 5 = 505.
Proof.
  unfold breezy_calculate_look_ahead_ms. split; [|split].
  - destruct (imu_ts <? now)%Z eqn:E.
    + apply Z.ltb_lt in E. rewrite Z.max_l by lia. ring.
    + apply Z.ltb_ge in E. rewrite Z.max_r by lia. ring.
  - simpl. destruct (Rle_dec 0 (-1)); [lra|]. lra.
  - simpl. destruct (Rle_dec 0 5); [|lra]. lra.
Qed.

Lemma two_atan_half_tan x : tan (2 * atan x / 2) = x.
Proof.
  replace (2 * atan x / 2) with (atan x) by field. apply tan_atan.
Qed.

(** C7: recombining the horizontal and vertical FOVs returned by
    [breezy_diagonal_to_cross_fovs] into a diagonal (flat lengths
    [2 tan(fov/2)], Pythagoras, [2 atan(length/2)]) gives back the diagonal
    FOV, exactly in real arithmetic and so within [1e-6]. *)
Theorem cross_fovs_roundtrip (diagonal_fov aspect_ratio : R)
  (Ha : 0 < aspect_ratio) (Hd : 0 < diagonal_fov < PI) :
  let fovs := breezy_diagonal_to_cross_fovs diagonal_fov aspect_ratio in
  cross_fovs_to_diagonal (horizontal fovs) (vertical fovs) = diagonal_fov /\
  Rabs (cross_fovs_to_diagonal (horizontal fovs) (vertical fovs)
        - diagonal_fov) < / 1000000.
Proof.
  intros fovs.
  assert (Heq : cross_fovs_to_diagonal (horizontal fovs) (vertical fovs)
                = diagonal_fov).
  { unfold cross_fovs_to_diagonal, fovs, breezy_diagonal_to_cross_fovs; simpl.
    rewrite !two_atan_half_tan.
    set (T := tan (diagonal_fov / 2)).
    set (s := sqrt (1 + aspect_ratio * aspect_ratio)).
    assert (HT : 0 < T) by (apply tan_gt_0; lra).
    assert (Hs2 : s * s = 1 + aspect_ratio * aspect_ratio)
      by (apply sqrt_sqrt; nra).
    assert (Hs : 0 < s) by (apply sqrt_lt_R0; nra).
    replace (2 * (2 * T / s * aspect_ratio / 2) * (2 * (2 * T / s * aspect_ratio / 2))
             + 2 * (2 * T / s / 2) * (2 * (2 * T / s / 2)))
      with ((2 * T) * (2 * T)).
    - rewrite sqrt_square by lra.
      replace (2 * T / 2) with T by field.
      unfold T. rewrite atan_tan by lra. field.
    - field_simplify; [|lra]. replace (s ^ 2) with (s * s) by ring. rewrite Hs2. field. nra. }
  split; [exact Heq|]. rewrite Heq, Rminus_diag, Rabs_R0.
  apply Rinv_0_lt_compat; lra.
Qed.

Lemma cross_fovs_roundtrip_witness :
  0 < 4 / 3 /\ 0 < PI / 2 < PI /\
  cross_fovs_to_diagonal
    (horizontal (breezy_diagonal_to_cross_fovs (PI / 2) (4 / 3)))
    (vertical (breezy_diagonal_to_cross_fovs (PI / 2) (4 / 3))) = PI / 2.
Proof.
  assert (H1 : 0 < 4 / 3) by lra.
  assert (H2 : 0 < PI / 2 < PI) by (pose proof PI_RGT_0; lra).
  split; [exact H1|]. split; [exact H2|].
  exact (proj1 (cross_fovs_roundtrip (PI / 2) (4 / 3) H1 H2)).
Defined.

End BreezyMathClaims.

Module SlerpClaims.
Import BreezyMath.
Local Open Scope R_scope.

Lemma qdot_self_nonneg q : 0 <= qdot q q.
Proof. unfold qdot. nra. Qed.

Lemma qdot_unit q : qnorm q = 1 -> qdot q q = 1.
Proof.
  unfold qnorm. intros H.
  rewrite <- (sqrt_sqrt (qdot q q)) by apply qdot_self_nonneg.
  rewrite H. ring.
Qed.

Lemma qdot_qcomb w1 q1 w2 q2 :
  qdot (qcomb w1 q1 w2 q2) (qcomb w1 q1 w2 q2) =
  w1 * w1 * qdot q1 q1 + 2 * w1 * w2 * qdot q1 q2 + w2 * w2 * qdot q2 q2.
Proof. unfold qdot, qcomb; simpl. ring. Qed.

Lemma qdot_qneg_r a b : qdot a (qneg b) = - qdot a b.
Proof. unfold qdot, qneg; simpl. ring. Qed.

Lemma qdot_qneg_qneg b : qdot (qneg b) (qneg b) = qdot b b.
Proof. unfold qdot, qneg; simpl. ring. Qed.

Lemma qcomb_1_0 q a : qcomb 1 q 0 a = q.
Proof. destruct q; unfold qcomb; simpl; f_equal; ring. Qed.

Lemma qcomb_0_1 q a : qcomb 0 q 1 a = a.
Proof. destruct a; unfold qcomb; simpl; f_equal; ring. Qed.

Lemma qcomb_same t q : qcomb (1 - t) q t q = q.
Proof. destruct q; unfold qcomb; simpl; f_equal; ring. Qed.

Lemma normalize_result_unit r : qdot r r = 1 -> normalize_result r = r.
Proof.
  intros H. unfold normalize_result, qnorm. rewrite H, sqrt_1.
  destruct (Rlt_dec 0 1); [|lra].
  destruct r; simpl; f_equal; field.
Qed.

Lemma normalize_result_norm r : 0 < qdot r r -> qnorm (normalize_result r) = 1.
Proof.
  intros H. unfold normalize_result.
  assert (Hl : 0 < qnorm r) by (apply sqrt_lt_R0, H).
  destruct (Rlt_dec 0 (qnorm r)) as [_|]; [|lra].
  assert (Hsq : qnorm r * qnorm r = qdot r r) by (apply sqrt_sqrt; lra).
  set (L := qnorm r) in *.
  assert (E : qdot (mkQuat (qx r / L) (qy r / L) (qz r / L) (qw r / L))
                   (mkQuat (qx r / L) (qy r / L) (qz r / L) (qw r / L))
              = qdot r r / (L * L)) by (unfold qdot; simpl; field; lra).
  unfold qnorm at 1. rewrite E, Hsq.
  replace (qdot r r / qdot r r) with 1 by (field; lra). apply sqrt_1.
Qed.

(** The interpolated quaternion is non-zero for unit inputs. *)
Lemma qcomb_pos w1 q1 w2 a :
  qdot q1 q1 = 1 -> qdot a a = 1 -> 0 <= qdot q1 a ->
  0 <= w1 -> 0 <= w2 -> 0 < w1 + w2 ->
  0 < qdot (qcomb w1 q1 w2 a) (qcomb w1 q1 w2 a).
Proof.
  intros H1 H2 Hc Hw1 Hw2 Hs. rewrite qdot_qcomb, H1, H2.
  assert (0 <= w1 * w2 * qdot q1 a)
    by (apply Rmult_le_pos; [apply Rmult_le_pos|]; lra).
  assert (0 < w1 * w1 + w2 * w2).
  { destruct (Rlt_or_le 0 w1).
    - assert (0 < w1 * w1) by (apply Rmult_lt_0_compat; lra). nra.
    - assert (0 < w2 * w2) by (apply Rmult_lt_0_compat; lra). nra. }
  lra.
Qed.

Lemma sin_weights_pos t theta :
  0 <= t <= 1 -> 0 <= theta <= PI -> 0 < sin theta ->
  0 <= sin ((1 - t) * theta) / sin theta /\
  0 <= sin (t * theta) / sin theta /\
  0 < sin ((1 - t) * theta) / sin theta + sin (t * theta) / sin theta.
Proof.
  intros Ht Hth Hs.
  assert (Hth0 : 0 < theta) by (destruct (Req_dec theta 0) as [E|E];
    [rewrite E, sin_0 in Hs; lra | lra]).
  assert (HthP : theta < PI) by (destruct (Req_dec theta PI) as [E|E];
    [rewrite E, sin_PI in Hs; lra | lra]).
  assert (A : 0 <= sin ((1 - t) * theta)) by (apply sin_ge_0; nra).
  assert (B : 0 <= sin (t * theta)) by (apply sin_ge_0; nra).
  assert (C : 0 < sin ((1 - t) * theta) + sin (t * theta)).
  { destruct (Rle_dec t (1 / 2)).
    - assert (0 < sin ((1 - t) * theta)) by (apply sin_gt_0; nra). lra.
    - assert (0 < sin (t * theta)) by (apply sin_gt_0; nra). lra. }
  split; [|split].
  - apply Rmult_le_pos; [lra | left; apply Rinv_0_lt_compat; lra].
  - apply Rmult_le_pos; [lra | left; apply Rinv_0_lt_compat; lra].
  - replace (sin ((1 - t) * theta) / sin theta + sin (t * theta) / sin theta)
      with ((sin ((1 - t) * theta) + sin (t * theta)) / sin theta) by (field; lra).
    apply Rdiv_lt_0_compat; lra.
Qed.

Lemma slerp_interpolate_pos q1 q2 t0 :
  qdot q1 q1 = 1 -> qdot q2 q2 = 1 ->
  0 < qdot (slerp_interpolate q1 q2 t0) (slerp_interpolate q1 q2 t0).
Proof.
  intros H1 H2. unfold slerp_interpolate.
  set (t1 := if Rlt_dec t0 0 then 0 else t0).
  set (t := if Rlt_dec 1 t1 then 1 else t1).
  assert (Ht : 0 <= t <= 1).
  { unfold t, t1. destruct (Rlt_dec t0 0); [|destruct (Rlt_dec 1 t0)];
      try destruct (Rlt_dec 1 0); lra. }
  clearbody t t1.
  assert (Hpos : forall a dot1, qdot a a = 1 -> 0 <= qdot q1 a ->
    let dot2 := if Rlt_dec 1 dot1 then 1 else dot1 in
    let dot := if Rlt_dec dot2 (-1) then -1 else dot2 in
    0 < qdot
      (if Rlt_dec (sin (acos dot)) (/ 1000000)
       then qcomb (1 - t) q1 t a
       else qcomb (sin ((1 - t) * acos dot) / sin (acos dot)) q1
              (sin (t * acos dot) / sin (acos dot)) a)
      (if Rlt_dec (sin (acos dot)) (/ 1000000)
       then qcomb (1 - t) q1 t a
       else qcomb (sin ((1 - t) * acos dot) / sin (acos dot)) q1
              (sin (t * acos dot) / sin (acos dot)) a)).
  { intros a dot1 Ha Hc dot2 dot.
    destruct (Rlt_dec (sin (acos dot)) (/ 1000000)).
    - apply qcomb_pos; auto; lra.
    - assert (Hs : 0 < sin (acos dot)).
      { assert (0 < / 1000000) by (apply Rinv_0_lt_compat; lra). lra. }
      destruct (sin_weights_pos t (acos dot) Ht (acos_bound dot) Hs)
        as [A [B C]].
      apply qcomb_pos; auto. }
  destruct (Rlt_dec (qdot q1 q2) 0) as [Hn|Hn]; simpl.
  - apply Hpos; [rewrite qdot_qneg_qneg; exact H2 | rewrite qdot_qneg_r; lra].
  - apply Hpos; [exact H2 | lra].
Qed.

Ltac set_theta :=
  match goal with |- context [sin (acos ?D)] => set (th := acos D) end.

Lemma slerp_interpolate_0 q1 q2 : slerp_interpolate q1 q2 0 = q1.
Proof.
  unfold slerp_interpolate.
  destruct (Rlt_dec 0 0); [lra|]. destruct (Rlt_dec 1 0); [lra|].
  destruct (Rlt_dec (qdot q1 q2) 0); simpl; set_theta;
    (destruct (Rlt_dec (sin th) (/ 1000000)) as [Hs|Hs];
     [rewrite Rminus_0_r; apply qcomb_1_0|]);
    (assert (Hs0 : sin th <> 0)
       by (assert (0 < / 1000000) by (apply Rinv_0_lt_compat; lra); lra));
    rewrite Rminus_0_r, Rmult_1_l, Rmult_0_l, sin_0;
    replace (sin th / sin th) with 1 by (field; exact Hs0);
    replace (0 / sin th) with 0 by (field; exact Hs0); apply qcomb_1_0.
Qed.

Lemma slerp_interpolate_1 q1 q2 :
  slerp_interpolate q1 q2 1 =
  (if Rlt_dec (qdot q1 q2) 0 then qneg q2 else q2).
Proof.
  unfold slerp_interpolate.
  destruct (Rlt_dec 1 0); [lra|]. destruct (Rlt_dec 1 1); [lra|].
  destruct (Rlt_dec (qdot q1 q2) 0); simpl; set_theta;
    (destruct (Rlt_dec (sin th) (/ 1000000)) as [Hs|Hs];
     [rewrite Rminus_diag; apply qcomb_0_1|]);
    (assert (Hs0 : sin th <> 0)
       by (assert (0 < / 1000000) by (apply Rinv_0_lt_compat; lra); lra));
    rewrite Rminus_diag, Rmult_1_l, Rmult_0_l, sin_0;
    replace (sin th / sin th) with 1 by (field; exact Hs0);
    replace (0 / sin th) with 0 by (field; exact Hs0); apply qcomb_0_1.
Qed.

Lemma slerp_interpolate_same q t0 :
  qdot q q = 1 -> slerp_interpolate q q t0 = q.
Proof.
  intros H. unfold slerp_interpolate. rewrite H.
  destruct (Rlt_dec 1 0); [lra|]. simpl.
  destruct (Rlt_dec 1 1); [lra|]. destruct (Rlt_dec 1 (-1)); [lra|].
  rewrite acos_1, sin_0.
  destruct (Rlt_dec 0 (/ 1000000)) as [_|Hn].
  - apply qcomb_same.
  - exfalso; apply Hn, Rinv_0_lt_compat; lra.
Qed.

(** C8: for unit quaternions, [slerp(q1, q2, 0)] is [q1]; [slerp(q1, q2, 1)]
    is [q2], or [-q2] (the same rotation) when [q1 . q2 < 0];
    [slerp(q, q, t)] is [q]; and every result has norm exactly 1. *)
Theorem slerp_properties (q1 q2 : Quat) (t : R)
  (H1 : qnorm q1 = 1) (H2 : qnorm q2 = 1) :
  breezy_slerp_quaternion q1 q2 0 = q1 /\
  breezy_slerp_quaternion q1 q2 1 =
    (if Rlt_dec (qdot q1 q2) 0 then qneg q2 else q2) /\
  breezy_slerp_quaternion q1 q1 t = q1 /\
  qnorm (breezy_slerp_quaternion q1 q2 t) = 1.
Proof.
  apply qdot_unit in H1. apply qdot_unit in H2.
  unfold breezy_slerp_quaternion. split; [|split; [|split]].
  - rewrite slerp_interpolate_0. apply normalize_result_unit, H1.
  - rewrite slerp_interpolate_1. apply normalize_result_unit.
    destruct (Rlt_dec (qdot q1 q2) 0); [rewrite qdot_qneg_qneg|]; exact H2.
  - rewrite slerp_interpolate_same by exact H1. apply normalize_result_unit, H1.
  - apply normalize_result_norm, slerp_interpolate_pos; assumption.
Qed.

Lemma slerp_properties_witness :
  let q1 := mkQuat 0 0 0 1 in
  let q2 := mkQuat 1 0 0 0 in
  qnorm q1 = 1 /\ qnorm q2 = 1 /\
  qnorm (breezy_slerp_quaternion q1 q2 (1 / 2)) = 1.
Proof.
  intros q1 q2.
  assert (Hq1 : qnorm q1 = 1)
    by (unfold qnorm, qdot; simpl; transitivity (sqrt 1); [f_equal; ring | apply sqrt_1]).
  assert (Hq2 : qnorm q2 = 1)
    by (unfold qnorm, qdot; simpl; transitivity (sqrt 1); [f_equal; ring | apply sqrt_1]).
  split; [exact Hq1|]. split; [exact Hq2|].
  exact (proj2 (proj2 (proj2 (slerp_properties q1 q2 (1 / 2) Hq1 Hq2)))).
Defined.

End SlerpClaims.

Module UniformsClaims.
Import BreezyMath Uniforms.
Local Open Scope R_scope.

Lemma PI_le_334 : PI <= 334 / 100.
Proof.
  destruct (PI_ineq 2) as [_ H]. unfold tg_alt, PI_tg in H. simpl in H. lra.
Qed.

(** [tan x < 3/5] at [x = 3 PI / 20] (about 27 degrees). *)
Lemma tan_3PI20_lt : tan (3 * PI / 20) < 3 / 5.
Proof.
  pose proof PI_le_334 as HPI. pose proof PI_RGT_0 as HP0.
  set (x := 3 * PI / 20).
  assert (Hx : 0 < x <= 501 / 1000) by (unfold x; lra).
  assert (Hs : sin x < x) by (apply sin_lt_x; lra).
  assert (Hh : 0 < sin (x / 2) < x / 2).
  { split; [apply sin_gt_0; unfold x; lra | apply sin_lt_x; lra]. }
  assert (Hc : cos x = 1 - 2 * sin (x / 2) * sin (x / 2)).
  { rewrite <- cos_2a_sin. f_equal. field. }
  assert (Hsq : sin (x / 2) * sin (x / 2) < x / 2 * (x / 2))
    by (apply Rmult_le_0_lt_compat; lra).
  assert (Hc1 : 1 - x * x / 2 < cos x) by (rewrite Hc; lra).
  assert (Hcpos : 0 < cos x) by nra.
  unfold tan. apply (Rmult_lt_reg_r (cos x)); [exact Hcpos|].
  unfold Rdiv. rewrite Rmult_assoc, Rinv_l by lra. nra.
Qed.

Lemma two_atan_half_tan_u x : tan (2 * atan x / 2) = x.
Proof.
  replace (2 * atan x / 2) with (atan x) by field. apply tan_atan.
Qed.

Lemma sqrt_25_9 : sqrt (5 / 3 * (5 / 3)) = 5 / 3.
Proof. apply sqrt_square. lra. Qed.

(** C5 (counterexample): for a 1024x768 display with a 90 degree diagonal
    FOV, the vertical half-width uploaded by [set_shader_uniforms] is
    [tan(3 PI / 20)] (below 0.6), while the math library's conversion gives
    [3/5]. *)
Lemma fov_half_widths_not_library :
  let config := mkConfigR 10 1024 768 90 0 false false true in
  exists u, set_shader_uniforms 1 60 true 0 config 1024 768 0 = Some u /\
    snd (u_fov_half_widths u) < 3 / 5 /\
    snd (spec_fov_half_widths config) = 3 / 5 /\
    u_fov_half_widths u <> spec_fov_half_widths config.
Proof.
  intros config. eexists. split; [reflexivity|].
  assert (Hsq1 : sqrt (IZR 1024 / IZR 768 * (IZR 1024 / IZR 768) + 1) = 5 / 3).
  { rewrite <- sqrt_25_9. f_equal. field. }
  assert (Hsq2 : sqrt (1 + IZR 1024 / IZR 768 * (IZR 1024 / IZR 768)) = 5 / 3).
  { rewrite <- sqrt_25_9. f_equal. field. }
  assert (Hcode : snd (tan (90 * PI / 180 / sqrt (IZR 1024 / IZR 768 *
                   (IZR 1024 / IZR 768) + 1) / 2 * (IZR 1024 / IZR 768)),
                   tan (90 * PI / 180 / sqrt (IZR 1024 / IZR 768 *
                   (IZR 1024 / IZR 768) + 1) / 2)) < 3 / 5).
  { simpl. rewrite Hsq1.
    replace (90 * PI / 180 / (5 / 3) / 2) with (3 * PI / 20) by field.
    apply tan_3PI20_lt. }
  assert (Hlib : snd (spec_fov_half_widths config) = 3 / 5).
  { unfold spec_fov_half_widths, breezy_diagonal_to_cross_fovs; simpl.
    rewrite two_atan_half_tan_u, Hsq2.
    replace (90 * PI / 180 / 2) with (PI / 4) by field.
    rewrite tan_PI4. field. }
  simpl in Hcode |- *. split; [exact Hcode|]. split; [exact Hlib|].
  intros E. rewrite <- E in Hlib. simpl in Hlib. lra.
Qed.

(** C5 (amended): whenever [set_shader_uniforms] uploads uniforms (shader
    program present, IMU sample and config valid), it splits the diagonal
    angle [theta = display_fov * PI / 180] linearly, with
    [a = width / height] and [s = sqrt(a^2 + 1)]: the half angles are
    [theta / s / 2] and [a * theta / s / 2] and the half-widths their
    tangents, whereas the math library's conversion gives the half-widths
    [(a * tan(theta/2) / s, tan(theta/2) / s)]. *)
Theorem fov_half_widths_linear_split (shader_program refresh_rate : Z)
  (imu_valid : bool) (imu_timestamp_ms : Z) (config : ConfigR)
  (width height now_ms : Z)
  (Hsp : shader_program <> 0%Z) (Himu : imu_valid = true)
  (Hcfg : config_valid config = true) :
  let a := IZR (display_resolution_w config) / IZR (display_resolution_h config) in
  let theta := display_fov config * PI / 180 in
  let s := sqrt (a * a + 1) in
  (exists u,
     set_shader_uniforms shader_program refresh_rate imu_valid imu_timestamp_ms
       config width height now_ms = Some u /\
     u_half_fov_z_rads u = theta / s / 2 /\
     u_half_fov_y_rads u = theta / s / 2 * a /\
     u_fov_half_widths u = (tan (theta / s / 2 * a), tan (theta / s / 2))) /\
  spec_fov_half_widths config = (a * tan (theta / 2) / s, tan (theta / 2) / s).
Proof.
  intros a theta s. split.
  - eexists. split.
    + unfold set_shader_uniforms. rewrite Himu, Hcfg.
      apply Z.eqb_neq in Hsp. rewrite Hsp. reflexivity.
    + simpl. repeat split.
  - assert (Hs : 0 < s) by (apply sqrt_lt_R0; nra).
    unfold spec_fov_half_widths, breezy_diagonal_to_cross_fovs. simpl.
    fold a theta.
    replace (1 + a * a) with (a * a + 1) by ring. fold s.
    rewrite two_atan_half_tan_u, two_atan_half_tan_u.
    f_equal; field; lra.
Qed.

Lemma fov_half_widths_linear_split_witness :
  let config := mkConfigR 10 1024 768 90 0 false false true in
  exists u, set_shader_uniforms 1 60 true 0 config 1024 768 0 = Some u /\
    u_fov_half_widths u =
      (tan (90 * PI / 180 / sqrt (1024 / 768 * (1024 / 768) + 1) / 2 * (1024 / 768)),
       tan (90 * PI / 180 / sqrt (1024 / 768 * (1024 / 768) + 1) / 2)).
Proof.
  intros config.
  destruct (fov_half_widths_linear_split 1 60 true 0 config 1024 768 0
              ltac:(discriminate) eq_refl eq_refl) as [[u [Hu [_ [_ Hw]]]] _].
  exists u. split; [exact Hu|]. exact Hw.
Defined.

End UniformsClaims.

Module BreezyMathMoreFacts.
Import BreezyMath BreezyMathMore.
Local Open Scope R_scope.

(** Equalities of quaternion and vector expressions, componentwise. *)
Ltac qring :=
  repeat match goal with q : Quat |- _ => destruct q | v : Vec3 |- _ => destruct v end;
  unfold breezy_multiply_quaternions, breezy_conjugate_quaternion,
    breezy_apply_quaternion_to_vector, pure, vec_part, qdot, vdot; simpl;
  match goal with |- @eq R _ _ => ring | _ => f_equal; ring end.

Lemma sqrt_sum_sq_pos h c : 0 < c -> 0 < sqrt (h * h + c * c).
Proof. intros Hc. apply sqrt_lt_R0. nra. Qed.

Lemma asin_over_hypot h c :
  0 < c -> asin (h / sqrt (h * h + c * c)) = atan (h / c).
Proof.
  intros Hc.
  set (e := sqrt (h * h + c * c)).
  assert (He : 0 < e) by (apply sqrt_sum_sq_pos; exact Hc).
  assert (He2 : e * e = h * h + c * c) by (apply sqrt_sqrt; nra).
  assert (Hx : -1 < h / e < 1).
  { assert (Hlt : h * h < e * e) by nra.
    split.
    - apply (Rmult_lt_reg_r e); [exact He|].
      unfold Rdiv; rewrite Rmult_assoc, Rinv_l, Rmult_1_r by lra. nra.
    - apply (Rmult_lt_reg_r e); [exact He|].
      unfold Rdiv; rewrite Rmult_assoc, Rinv_l, Rmult_1_r by lra. nra. }
  rewrite asin_atan by exact Hx. f_equal.
  assert (Hs : sqrt (1 - (h / e)²) = c / e).
  { replace (1 - (h / e)²) with ((c / e) * (c / e)).
    - apply sqrt_square. apply Rlt_le, Rdiv_lt_0_compat; assumption.
    - unfold Rsqr.
      replace (c / e * (c / e)) with ((c * c) / (e * e)) by (field; lra).
      replace (c * c) with (e * e - h * h) by lra. field. lra. }
  rewrite Hs. field. split; lra.
Qed.

(** Identities of the multiplication and conjugation formulas. *)
Lemma mul_assoc q1 q2 q3 :
  breezy_multiply_quaternions (breezy_multiply_quaternions q1 q2) q3 =
  breezy_multiply_quaternions q1 (breezy_multiply_quaternions q2 q3).
Proof. qring. Qed.

Lemma conj_mul q1 q2 :
  breezy_conjugate_quaternion (breezy_multiply_quaternions q1 q2) =
  breezy_multiply_quaternions (breezy_conjugate_quaternion q2)
    (breezy_conjugate_quaternion q1).
Proof. qring. Qed.

Lemma qdot_mul q1 q2 :
  qdot (breezy_multiply_quaternions q1 q2) (breezy_multiply_quaternions q1 q2) =
  qdot q1 q1 * qdot q2 q2.
Proof. qring. Qed.

(** The code's formula is the sandwich product, up to a term that vanishes
    for unit quaternions. *)
Lemma apply_sandwich_general v q :
  breezy_apply_quaternion_to_vector v q =
  mkVec3 (v0 (vec_part (sandwich q v)) + (1 - qdot q q) * v0 v)
         (v1 (vec_part (sandwich q v)) + (1 - qdot q q) * v1 v)
         (v2 (vec_part (sandwich q v)) + (1 - qdot q q) * v2 v).
Proof. unfold sandwich. qring. Qed.

Lemma sandwich_real q v : qw (sandwich q v) = 0.
Proof. unfold sandwich. qring. Qed.

Lemma apply_sandwich_unit v q :
  qdot q q = 1 -> breezy_apply_quaternion_to_vector v q = vec_part (sandwich q v).
Proof.
  intros H. rewrite apply_sandwich_general, H.
  destruct (vec_part (sandwich q v)); simpl. f_equal; ring.
Qed.

Lemma pure_vec_part x : qw x = 0 -> pure (vec_part x) = x.
Proof. destruct x; simpl; intros ->; reflexivity. Qed.

Lemma vdot_vec_part x : qw x = 0 -> vdot (vec_part x) (vec_part x) = qdot x x.
Proof. destruct x; simpl; intros ->. unfold vdot, qdot; simpl; ring. Qed.

Lemma qdot_pure v : qdot (pure v) (pure v) = vdot v v.
Proof. qring. Qed.

Lemma qdot_conj q :
  qdot (breezy_conjugate_quaternion q) (breezy_conjugate_quaternion q) = qdot q q.
Proof. qring. Qed.

Lemma pos_sq_le_1 x : 0 <= x -> x * x = 1 -> x = 1.
Proof. intros H0 H. nra. Qed.



Lemma slerp_interpolate_clamp_lo q1 q2 t0 :
  t0 <= 0 -> slerp_interpolate q1 q2 t0 = slerp_interpolate q1 q2 0.
Proof.
  intros H. destruct (Req_dec t0 0) as [->|Hne]; [reflexivity|].
  unfold slerp_interpolate. cbv zeta.
  destruct (Rlt_dec t0 0); [|lra]. destruct (Rlt_dec 0 0); [lra|].
  reflexivity.
Qed.

Lemma slerp_interpolate_clamp_hi q1 q2 t0 :
  1 <= t0 -> slerp_interpolate q1 q2 t0 = slerp_interpolate q1 q2 1.
Proof.
  intros H. destruct (Req_dec t0 1) as [->|Hne]; [reflexivity|].
  unfold slerp_interpolate. cbv zeta.
  destruct (Rlt_dec t0 0); [lra|]. destruct (Rlt_dec 1 t0); [|lra].
  destruct (Rlt_dec 1 0); [lra|]. destruct (Rlt_dec 1 1); [lra|].
  reflexivity.
Qed.

End BreezyMathMoreFacts.

Module BreezyMathExtras.
Import BreezyMath BreezyMathMore BreezyMathMoreFacts SlerpClaims.
Local Open Scope R_scope.

(** X: on a flat display, going from a center distance to the distance of
    the FOV edge and back, over the same screen length, gives the center
    distance again (for a non-negative center distance). *)
Theorem flat_edge_distance_roundtrip (center_distance fov_length : R)
  (Hc : 0 <= center_distance) :
  breezy_fov_flat_fov_edge_to_screen_center_distance
    (breezy_fov_flat_center_to_fov_edge_distance center_distance fov_length)
    fov_length = center_distance.
Proof.
  unfold breezy_fov_flat_fov_edge_to_screen_center_distance,
    breezy_fov_flat_center_to_fov_edge_distance.
  rewrite sqrt_sqrt by nra.
  replace (fov_length / 2 * (fov_length / 2) + center_distance * center_distance -
           fov_length / 2 * (fov_length / 2))
    with (center_distance * center_distance) by ring.
  apply sqrt_square; exact Hc.
Qed.

Lemma flat_edge_distance_roundtrip_witness :
  0 <= 2 /\
  breezy_fov_flat_fov_edge_to_screen_center_distance
    (breezy_fov_flat_center_to_fov_edge_distance 2 3) 3 = 2.
Proof.
  assert (H : 0 <= 2) by lra.
  split; [exact H | exact (flat_edge_distance_roundtrip 2 3 H)].
Defined.

(** X: on a flat display, the half length that [angle_to_length] gives for
    a ray [(adjacent, opposite)] at screen distance [d], doubled into a
    chord, is converted back by [length_to_radians] (with the edge distance
    of that chord) to twice the ray's angle. *)
Theorem flat_chord_angle_roundtrip (fov_radians fov_length d opposite adjacent : R)
  (Hd : 0 < d) (Ha : 0 < adjacent) :
  let half := breezy_fov_flat_angle_to_length fov_radians fov_length d
                opposite adjacent in
  breezy_fov_flat_length_to_radians fov_radians fov_length
    (breezy_fov_flat_center_to_fov_edge_distance d (2 * half)) (2 * half) =
  2 * atan (opposite / adjacent).
Proof.
  intros half.
  unfold breezy_fov_flat_length_to_radians,
    breezy_fov_flat_center_to_fov_edge_distance.
  replace (2 * half / 2) with half by field.
  rewrite asin_over_hypot by exact Hd.
  unfold half, breezy_fov_flat_angle_to_length.
  replace (opposite / adjacent * d / d) with (opposite / adjacent)
    by (field; split; lra).
  ring.
Qed.

Lemma flat_chord_angle_roundtrip_witness :
  0 < 1 /\ 0 < 2 /\
  breezy_fov_flat_length_to_radians 0 0
    (breezy_fov_flat_center_to_fov_edge_distance 1
       (2 * breezy_fov_flat_angle_to_length 0 0 1 1 2))
    (2 * breezy_fov_flat_angle_to_length 0 0 1 1 2) = 2 * atan (1 / 2).
Proof.
  assert (H1 : 0 < 1) by lra. assert (H2 : 0 < 2) by lra.
  split; [exact H1|]. split; [exact H2|].
  exact (flat_chord_angle_roundtrip 0 0 1 1 2 H1 H2).
Defined.

(** X: on a curved display, [length_to_radians] undoes [angle_to_length]:
    the length of a ray's arc converts back to the ray's angle [atan2],
    whenever the FOV angle and length are non-zero. *)
Theorem curved_arc_angle_roundtrip (fov_radians fov_length screen_distance
    screen_edge_distance opposite adjacent : R)
  (Hr : fov_radians <> 0) (Hl : fov_length <> 0) :
  breezy_fov_curved_length_to_radians fov_radians fov_length screen_edge_distance
    (breezy_fov_curved_angle_to_length fov_radians fov_length screen_distance
       opposite adjacent) = atan2 opposite adjacent.
Proof.
  unfold breezy_fov_curved_length_to_radians, breezy_fov_curved_angle_to_length.
  field. split; assumption.
Qed.

Lemma curved_arc_angle_roundtrip_witness :
  1 <> 0 /\ 2 <> 0 /\
  breezy_fov_curved_length_to_radians 1 2 0
    (breezy_fov_curved_angle_to_length 1 2 0 1 1) = atan2 1 1.
Proof.
  assert (H1 : 1 <> 0) by lra. assert (H2 : 2 <> 0) by lra.
  split; [exact H1|]. split; [exact H2|].
  exact (curved_arc_angle_roundtrip 1 2 0 0 1 1 H1 H2).
Defined.


(** X: [breezy_multiply_quaternions] is associative, has [(0, 0, 0, 1)] as
    identity on both sides, and multiplies squared norms. *)
Theorem multiply_quaternions_algebra (q1 q2 q3 : Quat) :
  breezy_multiply_quaternions (breezy_multiply_quaternions q1 q2) q3 =
    breezy_multiply_quaternions q1 (breezy_multiply_quaternions q2 q3) /\
  breezy_multiply_quaternions (mkQuat 0 0 0 1) q1 = q1 /\
  breezy_multiply_quaternions q1 (mkQuat 0 0 0 1) = q1 /\
  qdot (breezy_multiply_quaternions q1 q2) (breezy_multiply_quaternions q1 q2) =
    qdot q1 q1 * qdot q2 q2.
Proof.
  split; [apply mul_assoc|]. split; [qring|]. split; [qring|].
  apply qdot_mul.
Qed.

(** X: [breezy_conjugate_quaternion] is an involution, reverses products,
    and a quaternion times its conjugate (either order) is the real
    quaternion [(0, 0, 0, |q|^2)]. *)
Theorem conjugate_quaternion_algebra (q q1 q2 : Quat) :
  breezy_conjugate_quaternion (breezy_conjugate_quaternion q) = q /\
  breezy_conjugate_quaternion (breezy_multiply_quaternions q1 q2) =
    breezy_multiply_quaternions (breezy_conjugate_quaternion q2)
      (breezy_conjugate_quaternion q1) /\
  breezy_multiply_quaternions q (breezy_conjugate_quaternion q) =
    mkQuat 0 0 0 (qdot q q) /\
  breezy_multiply_quaternions (breezy_conjugate_quaternion q) q =
    mkQuat 0 0 0 (qdot q q).
Proof.
  split; [qring|]. split; [apply conj_mul|]. split; qring.
Qed.

(** X: for a unit quaternion [q], [breezy_apply_quaternion_to_vector v q]
    is the rotation [q (v, 0) q*] (vector part; its real part is 0), and it
    preserves the vector's length. *)
Theorem apply_quaternion_is_rotation (v : Vec3) (q : Quat) (Hq : qnorm q = 1) :
  breezy_apply_quaternion_to_vector v q =
    vec_part (breezy_multiply_quaternions
                (breezy_multiply_quaternions q (pure v))
                (breezy_conjugate_quaternion q)) /\
  qw (breezy_multiply_quaternions (breezy_multiply_quaternions q (pure v))
        (breezy_conjugate_quaternion q)) = 0 /\
  vdot (breezy_apply_quaternion_to_vector v q)
       (breezy_apply_quaternion_to_vector v q) = vdot v v.
Proof.
  apply qdot_unit in Hq.
  split; [exact (apply_sandwich_unit v q Hq)|].
  split; [exact (sandwich_real q v)|].
  rewrite (apply_sandwich_unit v q Hq), vdot_vec_part by apply sandwich_real.
  unfold sandwich. rewrite !qdot_mul, qdot_conj, qdot_pure, Hq. ring.
Qed.

Lemma unit_x : qnorm (mkQuat 1 0 0 0) = 1.
Proof.
  unfold qnorm, qdot; simpl.
  transitivity (sqrt 1); [f_equal; ring | apply sqrt_1].
Qed.

Lemma apply_quaternion_is_rotation_witness :
  qnorm (mkQuat 1 0 0 0) = 1 /\
  vdot (breezy_apply_quaternion_to_vector (mkVec3 1 2 3) (mkQuat 1 0 0 0))
       (breezy_apply_quaternion_to_vector (mkVec3 1 2 3) (mkQuat 1 0 0 0)) =
  vdot (mkVec3 1 2 3) (mkVec3 1 2 3).
Proof.
  split; [exact unit_x|].
  exact (proj2 (proj2 (apply_quaternion_is_rotation (mkVec3 1 2 3)
                          (mkQuat 1 0 0 0) unit_x))).
Defined.

(** X: applying two unit quaternions in turn is applying their product:
    rotating by [q2] and then by [q1] is rotating by [q1 * q2]. *)
Theorem apply_quaternion_compose (v : Vec3) (q1 q2 : Quat)
  (H1 : qnorm q1 = 1) (H2 : qnorm q2 = 1) :
  breezy_apply_quaternion_to_vector (breezy_apply_quaternion_to_vector v q2) q1 =
  breezy_apply_quaternion_to_vector v (breezy_multiply_quaternions q1 q2).
Proof.
  apply qdot_unit in H1. apply qdot_unit in H2.
  assert (H12 : qdot (breezy_multiply_quaternions q1 q2)
                     (breezy_multiply_quaternions q1 q2) = 1)
    by (rewrite qdot_mul, H1, H2; ring).
  rewrite (apply_sandwich_unit _ q1 H1), (apply_sandwich_unit v q2 H2),
    (apply_sandwich_unit v _ H12).
  unfold sandwich at 1. rewrite pure_vec_part by apply sandwich_real.
  unfold sandwich. rewrite conj_mul, !mul_assoc. reflexivity.
Qed.

Lemma apply_quaternion_compose_witness :
  qnorm (mkQuat 1 0 0 0) = 1 /\
  breezy_apply_quaternion_to_vector
    (breezy_apply_quaternion_to_vector (mkVec3 1 2 3) (mkQuat 1 0 0 0))
    (mkQuat 1 0 0 0) =
  breezy_apply_quaternion_to_vector (mkVec3 1 2 3)
    (breezy_multiply_quaternions (mkQuat 1 0 0 0) (mkQuat 1 0 0 0)).
Proof.
  split; [exact unit_x|].
  exact (apply_quaternion_compose (mkVec3 1 2 3) _ _ unit_x unit_x).
Defined.

(** X: [breezy_normalize_vector3] turns a non-zero vector into a unit
    vector with the same direction: the input is a positive multiple of the
    result. *)
Theorem normalize_vector3_unit (v : Vec3) (Hv : 0 < vdot v v) :
  let n := breezy_normalize_vector3 v in
  vdot n n = 1 /\
  exists k, 0 < k /\ v0 v = k * v0 n /\ v1 v = k * v1 n /\ v2 v = k * v2 n.
Proof.
  intros n. unfold n, breezy_normalize_vector3.
  set (L := sqrt (v0 v * v0 v + v1 v * v1 v + v2 v * v2 v)).
  assert (HL : 0 < L) by (apply sqrt_lt_R0; unfold vdot in Hv; lra).
  assert (HL2 : L * L = vdot v v)
    by (unfold L, vdot in *; apply sqrt_sqrt; lra).
  destruct (Rlt_dec 0 L) as [_|Hn]; [|lra].
  split.
  - unfold vdot in *; simpl.
    replace (v0 v / L * (v0 v / L) + v1 v / L * (v1 v / L) + v2 v / L * (v2 v / L))
      with ((v0 v * v0 v + v1 v * v1 v + v2 v * v2 v) / (L * L)) by (field; lra).
    rewrite HL2. field. lra.
  - exists L. simpl. repeat split; [exact HL | field; lra ..].
Qed.

Lemma normalize_vector3_unit_witness :
  0 < vdot (mkVec3 3 0 4) (mkVec3 3 0 4) /\
  vdot (breezy_normalize_vector3 (mkVec3 3 0 4))
       (breezy_normalize_vector3 (mkVec3 3 0 4)) = 1.
Proof.
  assert (H : 0 < vdot (mkVec3 3 0 4) (mkVec3 3 0 4))
    by (unfold vdot; simpl; lra).
  split; [exact H | exact (proj1 (normalize_vector3_unit _ H))].
Defined.

(** X: scaling a position from one distance to another and back restores it
    ([breezy_scale_position_by_distance], for non-zero distances). *)
Theorem scale_position_roundtrip (p : Vec3) (current default : R)
  (Hc : current <> 0) (Hd : default <> 0) :
  breezy_scale_position_by_distance
    (breezy_scale_position_by_distance p current default) default current = p.
Proof.
  destruct p as [a b c]. unfold breezy_scale_position_by_distance; simpl.
  f_equal; field; split; assumption.
Qed.

Lemma scale_position_roundtrip_witness :
  2 <> 0 /\ 3 <> 0 /\
  breezy_scale_position_by_distance
    (breezy_scale_position_by_distance (mkVec3 1 2 3) 2 3) 3 2 = mkVec3 1 2 3.
Proof.
  assert (H2 : 2 <> 0) by lra. assert (H3 : 3 <> 0) by lra.
  split; [exact H2|]. split; [exact H3|].
  exact (scale_position_roundtrip _ 2 3 H2 H3).
Defined.

(** X: [breezy_adjust_display_distance_for_monitor_size] divides by the
    larger of the two size ratios, so the focused monitor, scaled by its
    ratios at the adjusted distance, fits within the base distance in both
    dimensions and exactly in at least one. *)
Theorem adjust_display_distance_fits (base fw fh Fw Fh : R)
  (Hb : 0 < base) (Hfw : 0 < fw) (Hfh : 0 < fh) (HFw : 0 < Fw) (HFh : 0 < Fh) :
  let d := breezy_adjust_display_distance_for_monitor_size base fw fh Fw Fh in
  d * (fw / Fw) <= base /\ d * (fh / Fh) <= base /\
  (d * (fw / Fw) = base \/ d * (fh / Fh) = base).
Proof.
  intros d. unfold d, breezy_adjust_display_distance_for_monitor_size.
  assert (Hw : 0 < fw / Fw) by (apply Rdiv_lt_0_compat; assumption).
  assert (Hh : 0 < fh / Fh) by (apply Rdiv_lt_0_compat; assumption).
  destruct (Rlt_dec (fh / Fh) (fw / Fw)) as [Hlt|Hge].
  - assert (E : base / (fw / Fw) * (fw / Fw) = base) by (field; lra).
    rewrite E. split; [lra|]. split; [|left; reflexivity].
    apply (Rmult_le_reg_r (fw / Fw)); [exact Hw|].
    replace (base / (fw / Fw) * (fh / Fh) * (fw / Fw))
      with (base / (fw / Fw) * (fw / Fw) * (fh / Fh)) by ring.
    rewrite E. nra.
  - assert (E : base / (fh / Fh) * (fh / Fh) = base) by (field; lra).
    rewrite E. split; [|split; [lra | right; reflexivity]].
    apply (Rmult_le_reg_r (fh / Fh)); [exact Hh|].
    replace (base / (fh / Fh) * (fw / Fw) * (fh / Fh))
      with (base / (fh / Fh) * (fh / Fh) * (fw / Fw)) by ring.
    rewrite E. nra.
Qed.

Lemma adjust_display_distance_fits_witness :
  0 < 2 /\ 0 < 3840 /\ 0 < 1080 /\ 0 < 1920 /\ 0 < 1080 /\
  breezy_adjust_display_distance_for_monitor_size 2 3840 1080 1920 1080 *
    (3840 / 1920) <= 2.
Proof.
  assert (H2 : 0 < 2) by lra. assert (H3 : 0 < 3840) by lra.
  assert (H4 : 0 < 1080) by lra. assert (H5 : 0 < 1920) by lra.
  split; [exact H2|]. split; [exact H3|]. split; [exact H4|].
  split; [exact H5|]. split; [exact H4|].
  exact (proj1 (adjust_display_distance_fits 2 3840 1080 1920 1080
                  H2 H3 H4 H5 H4)).
Defined.




(** X: [breezy_slerp_quaternion] clamps [t]: any [t <= 0] gives the start
    quaternion (for a unit start), any [t >= 1] gives the result for [t = 1]. *)
Theorem slerp_clamps_t (q1 q2 : Quat) (t : R) (H1 : qnorm q1 = 1) :
  (t <= 0 -> breezy_slerp_quaternion q1 q2 t = q1) /\
  (1 <= t -> breezy_slerp_quaternion q1 q2 t = breezy_slerp_quaternion q1 q2 1).
Proof.
  apply qdot_unit in H1. unfold breezy_slerp_quaternion. split; intros Ht.
  - rewrite slerp_interpolate_clamp_lo, slerp_interpolate_0 by exact Ht.
    apply normalize_result_unit, H1.
  - rewrite slerp_interpolate_clamp_hi by exact Ht. reflexivity.
Qed.

Lemma slerp_clamps_t_witness :
  qnorm (mkQuat 1 0 0 0) = 1 /\ -1 <= 0 /\
  breezy_slerp_quaternion (mkQuat 1 0 0 0) (mkQuat 0 0 0 1) (-1) = mkQuat 1 0 0 0.
Proof.
  assert (H : -1 <= 0) by lra.
  split; [exact unit_x|]. split; [exact H|].
  exact (proj1 (slerp_clamps_t (mkQuat 1 0 0 0) (mkQuat 0 0 0 1) (-1) unit_x) H).
Defined.

End BreezyMathExtras.

Module ImuReaderLifeExtras.
Import Bytes BytesFacts ImuReader ImuReaderFacts ImuReaderClaims ImuReaderLife.

(** X: [init_imu_reader] returns 0 exactly when the mutex, [open], [fstat]
    and [mmap] all succeed; the reader it leaves is ready to read exactly
    then, so after any failure both readers return invalid data, and after
    a success they return valid data exactly for an accepted buffer. *)
Theorem init_imu_reader_outcome (env : InitEnv) :
  let '(ret, r, _) := init_imu_reader env in
  (ret = 0 <-> mutex_init_ok env = true /\ 0 <= open_result env /\
              fstat_ok env = true /\ mmap_result env <> None) /\
  reader_ready r = (ret =? 0) /\
  valid (fst (read_latest_imu r)) = (ret =? 0) && accepted (shm r) /\
  cfg_valid (read_device_config r) = (ret =? 0) && accepted (shm r).
Proof.
  destruct env as [mok fd fok mm]; unfold init_imu_reader.
  cbn -[read_latest_imu read_device_config].
  destruct mok; cbn -[read_latest_imu read_device_config];
    rewrite ?read_latest_imu_valid, ?read_device_config_valid.
  2: { unfold reader_ready; simpl. intuition discriminate. }
  destruct (Z.ltb_spec fd 0); cbn -[read_latest_imu read_device_config];
    rewrite ?read_latest_imu_valid, ?read_device_config_valid.
  { unfold reader_ready; simpl. intuition (try discriminate; try lia). }
  destruct fok; cbn -[read_latest_imu read_device_config];
    rewrite ?read_latest_imu_valid, ?read_device_config_valid.
  2: { unfold reader_ready; simpl. intuition discriminate. }
  destruct mm as [data|]; cbn -[read_latest_imu read_device_config];
    rewrite ?read_latest_imu_valid, ?read_device_config_valid;
    unfold reader_ready; simpl.
  - replace (0 <=? fd) with true by (symmetry; apply Z.leb_le; lia).
    intuition (try discriminate; try lia).
  - intuition (try discriminate; try lia).
Qed.

(** X: across [init_imu_reader] and any number of [cleanup_imu_reader]
    calls the descriptor [open] returned is closed exactly once, and never
    a descriptor [open] did not return; after the first cleanup the reader
    reads nothing and a second cleanup changes nothing. *)
Theorem imu_reader_closes_once (env : InitEnv) :
  let '(_, r0, c1) := init_imu_reader env in
  let '(r1, c2) := cleanup_imu_reader r0 in
  let '(r2, c3) := cleanup_imu_reader r1 in
  c1 ++ c2 ++ c3 =
    (if mutex_init_ok env && (0 <=? open_result env) then [open_result env]
     else []) /\
  r2 = r1 /\
  valid (fst (read_latest_imu r1)) = false /\
  cfg_valid (read_device_config r1) = false.
Proof.
  destruct env as [mok fd fok mm]; unfold init_imu_reader; simpl.
  destruct mok; simpl.
  2: { repeat split. }
  destruct (Z.ltb_spec fd 0) as [Hfd|Hfd]; simpl.
  { replace (0 <=? fd) with false by (symmetry; apply Z.leb_gt; lia).
    unfold cleanup_imu_reader; simpl.
    replace (0 <=? fd) with false by (symmetry; apply Z.leb_gt; lia).
    repeat split. }
  replace (0 <=? fd) with true by (symmetry; apply Z.leb_le; lia).
  destruct fok; simpl.
  2: { repeat split. }
  destruct mm as [data|]; unfold cleanup_imu_reader; simpl.
  - replace (0 <=? fd) with true by (symmetry; apply Z.leb_le; lia).
    simpl. repeat split.
  - repeat split.
Qed.

End ImuReaderLifeExtras.

Module ImuReaderDecodeExtras.
Import Bytes BytesFacts ImuReader ImuReaderFacts ImuReaderClaims.

Lemma firstn_add_split (a b : nat) (l : list Z) :
  firstn (a + b) l = firstn a l ++ firstn b (skipn a l).
Proof.
  revert l; induction a as [|a IH]; intros [|x l]; simpl; auto.
  - now rewrite firstn_nil.
  - now rewrite IH.
Qed.

Lemma slice_split (off a b : nat) (d : list Z) :
  slice off (a + b) d = slice off a d ++ slice (off + a) b d.
Proof.
  unfold slice. rewrite firstn_add_split, skipn_skipn.
  now rewrite Nat.add_comm.
Qed.

Lemma le_decode_app (l1 l2 : list Z) :
  le_decode (l1 ++ l2) = le_decode l1 + 256 ^ Z.of_nat (length l1) * le_decode l2.
Proof.
  induction l1 as [|b l1 IH]; cbn [app le_decode length].
  - change (Z.of_nat 0) with 0. rewrite Z.pow_0_r. ring.
  - rewrite IH, Nat2Z.inj_succ, Z.pow_succ_r by lia. ring.
Qed.

Lemma le_decode_range (l : list Z) :
  Forall (fun b => 0 <= b < 256) l ->
  0 <= le_decode l < 256 ^ Z.of_nat (length l).
Proof.
  induction 1 as [|b l Hb Hl IH]; [simpl; lia|].
  cbn [le_decode length]. rewrite Nat2Z.inj_succ, Z.pow_succ_r by lia. nia.
Qed.

Lemma length_slice (off n : nat) (d : list Z) :
  (off + n <= length d)%nat -> length (slice off n d) = n.
Proof.
  intros H. unfold slice. rewrite length_firstn, length_skipn. lia.
Qed.

(** [(high << 32) | low] is [high * 2^32 + low] for a 32-bit [low]. *)
Lemma lor_shiftl_32 (hi lo : Z) :
  0 <= lo < 2 ^ 32 -> Z.lor (Z.shiftl hi 32) lo = lo + 2 ^ 32 * hi.
Proof.
  intros Hlo.
  assert (Hand : Z.land (Z.shiftl hi 32) lo = 0).
  { apply Z.bits_inj'; intros n Hn. rewrite Z.land_spec, Z.bits_0.
    destruct (Z.lt_ge_cases n 32) as [Hlt|Hge].
    - now rewrite Z.shiftl_spec_low.
    - rewrite <- (Z.mod_small lo (2 ^ 32)) by lia.
      rewrite Z.mod_pow2_bits_high by lia. apply andb_false_r. }
  rewrite <- Z.lxor_lor, <- Z.add_nocarry_lxor by exact Hand.
  rewrite Z.shiftl_mul_pow2 by lia. ring.
Qed.

(** X: the timestamp [read_latest_imu] returns for an accepted buffer is
    the 8-byte little-endian value at offset 113: shifting the high word by
    32 and OR-ing in the low word neither loses nor mixes bits. *)
Theorem read_latest_imu_timestamp (r : IMUReader)
  (Hready : reader_ready r = true) (Hacc : accepted (shm r) = true)
  (Hlen : (OFFSET_IMU_PARITY_BYTE < length (shm r))%nat)
  (Hbytes : Forall (fun b => 0 <= b < 256) (slice OFFSET_EPOCH_MS 4 (shm r))) :
  timestamp_ms (fst (read_latest_imu r)) =
    le_decode (slice OFFSET_EPOCH_MS 8 (shm r)).
Proof.
  rewrite (read_latest_imu_accepted r Hready Hacc). simpl timestamp_ms.
  replace 8%nat with (4 + 4)%nat by reflexivity.
  rewrite slice_split, le_decode_app.
  apply le_decode_range in Hbytes.
  rewrite length_slice in *
    by (unfold OFFSET_EPOCH_MS, OFFSET_IMU_PARITY_BYTE in *; lia).
  apply lor_shiftl_32. exact Hbytes.
Qed.

Lemma read_latest_imu_timestamp_witness :
  let base := 0 :: 1 :: repeat 7 184 in
  let r := mkIMUReader 3 true
             (replace_nth OFFSET_IMU_PARITY_BYTE (calculate_parity base) base)
             imu_zero in
  timestamp_ms (fst (read_latest_imu r)) =
    le_decode (slice OFFSET_EPOCH_MS 8 (shm r)).
Proof.
  intros base r.
  apply read_latest_imu_timestamp.
  - vm_compute. reflexivity.
  - vm_compute. reflexivity.
  - apply Nat.ltb_lt. vm_compute. reflexivity.
  - replace (slice OFFSET_EPOCH_MS 4 (shm r)) with [7; 7; 7; 7]
      by (vm_compute; reflexivity).
    repeat constructor; lia.
Defined.

(** X: a writer that stores the XOR of bytes [113, 185) at the trailer
    byte 185 is never rejected by the parity check: for any buffer, after
    sealing it that way both readers return valid data exactly when the
    reader is ready and the enabled byte is non-zero. *)
Theorem sealed_buffer_accepted (r : IMUReader) (d : list Z)
  (Hlen : (OFFSET_IMU_PARITY_BYTE < length d)%nat) :
  let sealed :=
    replace_nth OFFSET_IMU_PARITY_BYTE (calculate_parity d) d in
  valid (fst (read_latest_imu (with_shm r sealed))) =
    reader_ready r && negb (nth OFFSET_ENABLED d 0 =? 0) /\
  cfg_valid (read_device_config (with_shm r sealed)) =
    reader_ready r && negb (nth OFFSET_ENABLED d 0 =? 0).
Proof.
  intros sealed.
  assert (Hs : accepted sealed = negb (nth OFFSET_ENABLED d 0 =? 0)).
  { unfold accepted, sealed.
    rewrite nth_replace_nth_same by exact Hlen.
    rewrite nth_replace_nth_other
      by (unfold OFFSET_ENABLED, OFFSET_IMU_PARITY_BYTE; lia).
    unfold calculate_parity.
    rewrite (parity_loop_agree _ d).
    - rewrite Z.eqb_refl. apply andb_true_r.
    - intros j Hj. apply nth_replace_nth_other.
      unfold OFFSET_EPOCH_MS, OFFSET_IMU_PARITY_BYTE in Hj |- *; lia. }
  rewrite read_latest_imu_valid, read_device_config_valid.
  change (reader_ready (with_shm r sealed)) with (reader_ready r).
  change (shm (with_shm r sealed)) with sealed.
  rewrite Hs. split; reflexivity.
Qed.

Lemma sealed_buffer_accepted_witness :
  (OFFSET_IMU_PARITY_BYTE < length (0 :: 1 :: repeat 7 184))%nat /\
  valid (fst (read_latest_imu (with_shm (mkIMUReader 3 true [] imu_zero)
    (replace_nth OFFSET_IMU_PARITY_BYTE
       (calculate_parity (0 :: 1 :: repeat 7 184)) (0 :: 1 :: repeat 7 184)))))
  = true.
Proof.
  assert (H : (OFFSET_IMU_PARITY_BYTE < length (0 :: 1 :: repeat 7 184))%nat)
    by (apply Nat.ltb_lt; vm_compute; reflexivity).
  split; [exact H|].
  rewrite (proj1 (sealed_buffer_accepted (mkIMUReader 3 true [] imu_zero)
                    (0 :: 1 :: repeat 7 184) H)).
  vm_compute. reflexivity.
Defined.

End ImuReaderDecodeExtras.

Module FrameBufferExtras.
Import Bytes BytesFacts FrameRing FrameRingClaims FrameBufferLife.

Lemma alloc_frames_spec (k : nat) (ms : list (option Z)) (cl fr ts : list Z) :
  match alloc_frames k ms cl fr ts with
  | (Some (frames, ts'), freed) =>
      frames = fr ++ malloc_prefix k ms /\
      length (malloc_prefix k ms) = k /\
      (exists rest, ts' = ts ++ rest /\ length rest = k /\
                    ((0 < k)%nat -> hd 0 rest = hd 0 cl)) /\
      freed = []
  | (None, freed) =>
      freed = fr ++ malloc_prefix k ms /\ (length (malloc_prefix k ms) < k)%nat
  end.
Proof.
  revert ms cl fr ts; induction k as [|k IH]; intros ms cl fr ts; simpl.
  - rewrite app_nil_r. repeat split; auto.
    exists []. rewrite app_nil_r. repeat split; auto. lia.
  - destruct ms as [|[p|] ms]; simpl; try (rewrite app_nil_r; split; [reflexivity | lia]).
    specialize (IH ms (tl cl) (fr ++ [p]) (ts ++ [hd 0 cl])).
    destruct (alloc_frames k ms (tl cl) (fr ++ [p]) (ts ++ [hd 0 cl]))
      as [[[frames ts']|] freed].
    + destruct IH as (Hf & Hl & (rest & Ht & Hr & _) & Hfr).
      rewrite <- app_assoc in Hf. simpl in Hf.
      repeat split; auto.
      exists (hd 0 cl :: rest). rewrite <- app_assoc in Ht.
      repeat split; simpl; auto.
    + destruct IH as [Hf Hl]. rewrite <- app_assoc in Hf. simpl in *.
      split; [exact Hf | lia].
Qed.

Lemma accepted_writes_dims (fb1 fb2 : FrameBuffer) (ws : list (Z * Z * Z)) :
  width fb1 = width fb2 -> height fb1 = height fb2 ->
  accepted_writes fb1 ws = accepted_writes fb2 ws.
Proof.
  intros Hw Hh. induction ws as [|[[w h] now] ws IH]; simpl; auto.
  now rewrite Hw, Hh, IH.
Qed.

(** X: [init_frame_buffer] succeeds exactly when the first three [malloc]
    calls do; on success it frees nothing, keeps the three pointers, and
    leaves a well-formed ring whose first [read_latest_frame] returns the
    first clock reading; on failure it frees exactly the pointers allocated
    before the failing call, each once. *)
Theorem init_frame_buffer_result (w h : Z) (ms : list (option Z)) (cl : list Z) :
  let '(ret, fbo, freed) := init_frame_buffer w h ms cl in
  match fbo with
  | Some (fb, frames) =>
      ret = 0 /\ ring_ok fb /\ width fb = w /\ height fb = h /\
      frame_count fb = 0 /\ read_latest_frame fb = (true, hd 0 cl) /\
      frames = malloc_prefix 3 ms /\ length frames = 3%nat /\ freed = []
  | None =>
      ret = -1 /\ freed = malloc_prefix 3 ms /\ (length freed < 3)%nat
  end.
Proof.
  unfold init_frame_buffer. change (Z.to_nat RING_BUFFER_SIZE) with 3%nat.
  pose proof (alloc_frames_spec 3 ms cl [] []) as H.
  destruct (alloc_frames 3 ms cl [] []) as [[[frames ts]|] freed].
  - destruct H as (Hf & Hl & (rest & Ht & Hr & Hh) & Hfr). simpl in Hf, Ht.
    subst. unfold ring_ok, read_latest_frame, RING_BUFFER_SIZE; simpl.
    repeat split; auto; try lia.
    destruct rest as [|x rest]; simpl in *; [discriminate|].
    rewrite Hh by lia. reflexivity.
  - destruct H as [Hf Hl]. simpl in Hf. subst. repeat split; auto.
Qed.

(** X: [frame_count] counts the [write_frame] calls that were accepted
    (size matching the buffer), modulo 2^32, and no write ever changes
    [read_index]. *)
Theorem write_frames_frame_count (fb : FrameBuffer) (ws : list (Z * Z * Z))
  (Hfc : 0 <= frame_count fb < 2 ^ 32) :
  frame_count (write_frames fb ws) =
    (frame_count fb + accepted_writes fb ws) mod 2 ^ 32 /\
  read_index (write_frames fb ws) = read_index fb.
Proof.
  revert fb Hfc; induction ws as [|[[w h] now] ws IH]; intros fb Hfc; simpl.
  - rewrite Z.add_0_r, Z.mod_small by exact Hfc. auto.
  - set (fb1 := snd (write_frame fb w h now)).
    destruct (write_frame_dims fb w h now) as [Hw Hh]. fold fb1 in Hw, Hh.
    assert (Hc : frame_count fb1 =
                   (if (w =? width fb) && (h =? height fb)
                    then (frame_count fb + 1) mod 2 ^ 32 else frame_count fb) /\
                 read_index fb1 = read_index fb).
    { unfold fb1, write_frame. destruct (w =? width fb), (h =? height fb); simpl; auto. }
    destruct Hc as [Hc Hr].
    assert (Hb : 0 <= frame_count fb1 < 2 ^ 32).
    { rewrite Hc. destruct (_ && _); [apply Z.mod_pos_bound; lia | exact Hfc]. }
    destruct (IH fb1 Hb) as [IH1 IH2].
    rewrite IH2, Hr. split; [|reflexivity].
    rewrite IH1, (accepted_writes_dims fb1 fb ws Hw Hh), Hc.
    destruct (_ && _).
    + rewrite Zplus_mod_idemp_l. f_equal; ring.
    + f_equal; ring.
Qed.

Lemma write_frames_frame_count_witness :
  (0 <= 7 < 2 ^ 32) /\
  frame_count (write_frames (mkFrameBuffer 1920 1080 0 0 [0; 0; 0] 7)
                 [(1920, 1080, 10); (640, 480, 20); (1920, 1080, 30)]) = 9.
Proof.
  assert (H : 0 <= 7 < 2 ^ 32) by lia. split; [exact H|].
  rewrite (proj1 (write_frames_frame_count (mkFrameBuffer 1920 1080 0 0 [0; 0; 0] 7)
                    [(1920, 1080, 10); (640, 480, 20); (1920, 1080, 30)] H)).
  reflexivity.
Defined.

End FrameBufferExtras.

Module HandoffExtras.
Import Handoff HandoffRun.

(** X: when every publish is for a framebuffer other than the one before
    it (a page flip between exports), no DMA-BUF descriptor is lost or
    duplicated: over any interleaving of capture publishes and render takes
    followed by [cleanup_dmabuf_texture], the descriptors closed by the
    capture thread, handed to the render thread and closed at cleanup are
    exactly the one the slot held at the start and the published ones, each
    once. *)
Theorem handoff_descriptor_conservation (s : Slot) (evs : list HEvent)
  (Hfb : adjacent_distinct (current_fb_id s :: published_fb_ids evs) = true)
  (Hfd : Forall (fun fd => 0 <= fd) (published evs)) :
  let '(s', closed, taken) := handoff_run s evs in
  Permutation (closed ++ taken ++ snd (cleanup_dmabuf_slot s'))
              (held s ++ published evs).
Proof.
  revert s Hfb Hfd; induction evs as [|[fb fd format stride modifier|] evs IH];
    intros s Hfb Hfd; simpl in *.
  - unfold cleanup_dmabuf_slot, held. rewrite app_nil_r.
    destruct (0 <=? current_dmabuf_fd s); simpl; apply Permutation_refl.
  - apply andb_true_iff in Hfb as [Hne Hfb].
    inversion Hfd as [|fd' l Hfd0 Hfd']; subst.
    specialize (IH (mkSlot fd fb format stride modifier) Hfb Hfd').
    destruct (handoff_run (mkSlot fd fb format stride modifier) evs)
      as [[s2 c2] t2].
    unfold held in *; simpl in IH.
    replace (0 <=? fd) with true in IH by (symmetry; apply Z.leb_le; exact Hfd0).
    rewrite Z.eqb_sym in Hne.
    destruct (0 <=? current_dmabuf_fd s); rewrite Hne; simpl.
    + apply perm_skip. exact IH.
    + exact IH.
  - unfold render_take, held.
    destruct (0 <=? current_dmabuf_fd s) eqn:E.
    + specialize (IH (mkSlot (-1) (current_fb_id s) (current_format s)
                        (current_stride s) (current_modifier s)) Hfb Hfd).
      destruct (handoff_run _ evs) as [[s2 c2] t2].
      unfold held in IH; simpl in IH. rewrite E. simpl.
      eapply perm_trans; [apply Permutation_sym, Permutation_middle|].
      apply perm_skip. exact IH.
    + specialize (IH s Hfb Hfd).
      destruct (handoff_run s evs) as [[s2 c2] t2].
      unfold held in IH. rewrite E in IH |- *. exact IH.
Qed.

Lemma handoff_descriptor_conservation_witness :
  let '(s', closed, taken) :=
    handoff_run (mkSlot (-1) 0 0 0 0)
      [Publish 1 5 0 0 0; Take; Publish 2 6 0 0 0; Publish 3 7 0 0 0] in
  Permutation (closed ++ taken ++ snd (cleanup_dmabuf_slot s'))
              (held (mkSlot (-1) 0 0 0 0) ++ [5; 6; 7]).
Proof.
  apply (handoff_descriptor_conservation (mkSlot (-1) 0 0 0 0)
           [Publish 1 5 0 0 0; Take; Publish 2 6 0 0 0; Publish 3 7 0 0 0]).
  - reflexivity.
  - simpl. repeat constructor; discriminate.
Defined.

End HandoffExtras.

Module DrmExportExtras.
Import DrmExport.

Lemma export_no_fb_info (t : CapState) (env : ExportEnv) (f0 m0 : Z) :
  fb_info t = None -> export_drm_framebuffer_to_dmabuf t env f0 m0 = (-1, t, None).
Proof.
  intros H. unfold export_drm_framebuffer_to_dmabuf. rewrite H, orb_true_r.
  reflexivity.
Qed.

Lemma export_run_no_fb_info (t : CapState) (envs : list (ExportEnv * Z * Z)) :
  fb_info t = None -> export_run t envs = (repeat (-1) (length envs), t).
Proof.
  intros H. induction envs as [|[[env f0] m0] envs IH]; simpl; auto.
  rewrite export_no_fb_info by exact H. rewrite IH. reflexivity.
Qed.

(** X: if [drmModeGetFB] fails on a page flip, the call fails and leaves
    [fb_info] NULL with the new [fb_id]; from then on every call fails at
    its first check and changes nothing, whatever the kernel answers: the
    capture thread never exports a frame again. *)
Theorem export_failed_get_fb_is_permanent (t : CapState) (env : ExportEnv)
  (f0 m0 id : Z) (envs : list (ExportEnv * Z * Z))
  (Hfd : 0 <= drm_fd t) (Hinfo : fb_info t <> None)
  (Hcrtc : crtc_buffer_id env = Some id) (Hflip : id <> cap_fb_id t)
  (Hget : get_fb env = None) :
  let '(r, t1, out) := export_drm_framebuffer_to_dmabuf t env f0 m0 in
  r = -1 /\ out = None /\ fb_info t1 = None /\ cap_fb_id t1 = id /\
  export_run t1 envs = (repeat (-1) (length envs), t1).
Proof.
  unfold export_drm_framebuffer_to_dmabuf.
  replace (drm_fd t <? 0) with false by (symmetry; apply Z.ltb_ge; exact Hfd).
  destruct (fb_info t) as [info|] eqn:Hi; [|congruence].
  rewrite Hcrtc. simpl.
  replace (id =? cap_fb_id t) with false by (symmetry; apply Z.eqb_neq; exact Hflip).
  rewrite Hget. simpl. repeat split.
  apply export_run_no_fb_info. reflexivity.
Qed.

Lemma export_failed_get_fb_is_permanent_witness :
  let t := mkCapState 3 10 (Some (mkFBInfo 1 1920 1080 7680)) 1920 1080 1 in
  let env := mkExportEnv (Some 11) None (Some 4) None None in
  let '(r, t1, out) := export_drm_framebuffer_to_dmabuf t env 0 0 in
  r = -1 /\ out = None /\ fb_info t1 = None /\ cap_fb_id t1 = 11 /\
  export_run t1 [(mkExportEnv (Some 12) (Some (mkFBInfo 2 1920 1080 7680))
                    (Some 5) None None, 0, 0)] = ([-1], t1).
Proof.
  intros t env.
  apply (export_failed_get_fb_is_permanent t env 0 0 11).
  - simpl. lia.
  - discriminate.
  - reflexivity.
  - simpl. lia.
  - reflexivity.
Defined.

Ltac export_fail :=
  simpl; split; [split; intros HH; [discriminate | exfalso; apply HH; reflexivity]
                | exact I].

(** X: [export_drm_framebuffer_to_dmabuf] returns 0 exactly when it
    outputs a descriptor; then the descriptor is non-negative, the format
    is non-zero, the stride is the pitch of the framebuffer it now tracks,
    whose id is the CRTC's current buffer, and the modifier is the 32-bit
    value read (or the caller's): the [DRM_FORMAT_MOD_INVALID] test never
    changes a 32-bit modifier. *)
Theorem export_success_outputs (t : CapState) (env : ExportEnv) (f0 m0 : Z)
  (Hm0 : 0 <= m0 < 2 ^ 32)
  (Hpm : forall m, prop_modifier env = Some m -> 0 <= m < 2 ^ 32) :
  let '(r, t1, out) := export_drm_framebuffer_to_dmabuf t env f0 m0 in
  (r = 0 <-> out <> None) /\
  match out with
  | Some (fd, format, stride, modifier) =>
      0 <= fd /\ format <> 0 /\
      modifier = match prop_modifier env with Some m => m | None => m0 end /\
      (exists info, fb_info t1 = Some info /\ stride = fb_pitch info) /\
      crtc_buffer_id env = Some (cap_fb_id t1)
  | None => True
  end.
Proof.
  assert (Hm : 0 <= match prop_modifier env with Some m => m | None => m0 end < 2 ^ 32).
  { destruct (prop_modifier env) as [m|]; [apply Hpm; reflexivity | exact Hm0]. }
  unfold export_drm_framebuffer_to_dmabuf. cbv zeta.
  destruct (_ || _); [export_fail|].
  destruct (crtc_buffer_id env) as [id|] eqn:Hc; [|export_fail].
  assert (Hsel : forall t' : CapState, cap_fb_id t' = id ->
    let '(r, t1, out) :=
      match fb_info t' with
      | Some info =>
          match prime_fd env with
          | Some fd =>
              if fd <? 0 then (-1, t', None) else
              (0, t', Some (fd,
                 (if match prop_format env with Some f => f | None => f0 end =? 0
                  then DRM_FORMAT_XRGB8888
                  else match prop_format env with Some f => f | None => f0 end),
                 fb_pitch info,
                 (if (match prop_modifier env with Some m => m | None => m0 end =? 0) ||
                     (match prop_modifier env with Some m => m | None => m0 end
                        =? DRM_FORMAT_MOD_INVALID)
                  then DRM_FORMAT_MOD_LINEAR
                  else match prop_modifier env with Some m => m | None => m0 end)))
          | None => (-1, t', None)
          end
      | None => (-1, t', None)
      end in
    (r = 0 <-> out <> None) /\
    match out with
    | Some (fd, format, stride, modifier) =>
        0 <= fd /\ format <> 0 /\
        modifier = match prop_modifier env with Some m => m | None => m0 end /\
        (exists info, fb_info t1 = Some info /\ stride = fb_pitch info) /\
        Some id = Some (cap_fb_id t1)
    | None => True
    end).
  { intros t' Hid.
    destruct (fb_info t') as [info|] eqn:Hi; [|export_fail].
    destruct (prime_fd env) as [fd|]; [|export_fail].
    destruct (Z.ltb_spec fd 0) as [Hneg|Hpos]; [export_fail|].
    simpl. split; [split; [intros _; discriminate | reflexivity]|].
    split; [exact Hpos|]. split.
    { destruct (Z.eqb_spec (match prop_format env with Some f => f | None => f0 end) 0);
        [unfold DRM_FORMAT_XRGB8888; discriminate | assumption]. }
    split.
    { set (m := match prop_modifier env with Some m => m | None => m0 end) in *.
      destruct (Z.eqb_spec m 0) as [->|Hm1]; [reflexivity|].
      destruct (Z.eqb_spec m DRM_FORMAT_MOD_INVALID) as [Hinv|_]; [|reflexivity].
      unfold DRM_FORMAT_MOD_INVALID in Hinv. lia. }
    split; [exists info; split; [exact Hi | reflexivity]|].
    rewrite Hid. reflexivity. }
  destruct (negb (id =? cap_fb_id t)) eqn:Hf.
  - destruct (get_fb env) as [info|]; apply Hsel; reflexivity.
  - apply Hsel. apply negb_false_iff, Z.eqb_eq in Hf. symmetry; exact Hf.
Qed.

Lemma export_success_outputs_witness :
  (0 <= 0 < 2 ^ 32) /\
  (forall m, prop_modifier (mkExportEnv (Some 11) (Some (mkFBInfo 2 1920 1080 7680))
               (Some 4) (Some 0) (Some 5)) = Some m -> 0 <= m < 2 ^ 32) /\
  let '(r, t1, out) :=
    export_drm_framebuffer_to_dmabuf
      (mkCapState 3 10 (Some (mkFBInfo 1 1920 1080 7680)) 1920 1080 1)
      (mkExportEnv (Some 11) (Some (mkFBInfo 2 1920 1080 7680))
         (Some 4) (Some 0) (Some 5)) 0 0 in
  (r = 0 <-> out <> None) /\
  match out with
  | Some (fd, format, stride, modifier) =>
      0 <= fd /\ format <> 0 /\ modifier = 5 /\
      (exists info, fb_info t1 = Some info /\ stride = fb_pitch info) /\
      Some 11 = Some (cap_fb_id t1)
  | None => True
  end.
Proof.
  assert (H0 : 0 <= 0 < 2 ^ 32) by lia.
  assert (H1 : forall m, prop_modifier (mkExportEnv (Some 11)
                 (Some (mkFBInfo 2 1920 1080 7680)) (Some 4) (Some 0) (Some 5))
                 = Some m -> 0 <= m < 2 ^ 32).
  { intros m Hm. injection Hm as <-. lia. }
  split; [exact H0|]. split; [exact H1|].
  exact (export_success_outputs
    (mkCapState 3 10 (Some (mkFBInfo 1 1920 1080 7680)) 1920 1080 1)
    (mkExportEnv (Some 11) (Some (mkFBInfo 2 1920 1080 7680))
       (Some 4) (Some 0) (Some 5)) 0 0 H0 H1).
Defined.

End DrmExportExtras.

Module ConfigRefreshExtras.
Import ConfigRefresh.

Lemma current_time_ms_range (c : option (Z * Z)) :
  0 <= current_time_ms c < 2 ^ 64.
Proof.
  destruct c as [[s ns]|]; simpl; [apply Z.mod_pos_bound; lia | lia].
Qed.

(** X: once a config has been read (a non-zero [last_config_update_ms]
    below 2^63), the render loop rereads it exactly when the clock is more
    than 1000 ms ahead of the last update or behind it: the unsigned
    subtraction wraps, so a clock that steps back, or a failing
    [clock_gettime] (read as 0), triggers a reread. *)
Theorem config_refresh_due_when (last : Z) (c : option (Z * Z))
  (Hlast : 0 < last < 2 ^ 63) :
  (config_refresh_due last (current_time_ms c) = true <->
   current_time_ms c < last \/ last + 1000 < current_time_ms c) /\
  config_refresh_due last (current_time_ms None) = true.
Proof.
  assert (Hgen : forall now, 0 <= now < 2 ^ 64 ->
            config_refresh_due last now = true <-> now < last \/ last + 1000 < now).
  { intros now Hnow. unfold config_refresh_due.
    change (2 ^ 64) with 18446744073709551616 in *.
    change (2 ^ 63) with 9223372036854775808 in *.
    replace (last =? 0) with false by (symmetry; apply Z.eqb_neq; lia).
    simpl. rewrite Z.ltb_lt.
    destruct (Z_lt_le_dec now last) as [Hlt|Hge].
    - rewrite <- (Z_mod_plus_full (now - last) 1), Z.mod_small by lia. lia.
    - rewrite Z.mod_small by lia. lia. }
  split.
  - apply Hgen, current_time_ms_range.
  - apply Hgen; simpl; lia.
Qed.

Lemma config_refresh_due_when_witness :
  (0 < 5000 < 2 ^ 63) /\
  config_refresh_due 5000 (current_time_ms (Some (10, 0))) = true.
Proof.
  assert (H : 0 < 5000 < 2 ^ 63) by lia. split; [exact H|].
  apply (proj1 (config_refresh_due_when 5000 (Some (10, 0)) H)).
  right. vm_compute. reflexivity.
Defined.

End ConfigRefreshExtras.

Module MainRunExtras.
Import Shutdown MainRun.

(** X: [main] cleans up exactly the components whose initialisation
    succeeded, in the reverse order of their initialisation, and returns 0
    exactly when it got at least four arguments and all four [init_*]
    calls succeeded: whether [pthread_create] succeeds does not change the
    exit status. *)
Theorem main_cleanup_reverses_init (argc : Z) (o : Outcomes) :
  snd (main_run argc o) = rev (initialized argc o) /\
  (fst (main_run argc o) = 0 <->
   5 <= argc /\ init_frame_buffer_ok o = true /\ init_imu_reader_ok o = true /\
   init_capture_thread_ok o = true /\ init_render_thread_ok o = true).
Proof.
  unfold main_run, initialized.
  destruct (Z.ltb_spec argc 5) as [Ha|Ha].
  - simpl. split; [reflexivity|]. split; [discriminate | lia].
  - destruct o as [[] [] [] [] cc cr]; simpl;
      (split; [reflexivity|]); split; try discriminate;
      intuition (try discriminate; try lia).
Qed.

(** X: in every run of [main] each thread whose [pthread_create]
    succeeded is joined, exactly once: [main] never exits leaving a
    started thread unjoined. *)
Theorem main_joins_each_created_thread (o : Outcomes) (k : Which) :
  count_joins k (main_events o) = count_created k (main_events o).
Proof.
  destruct o as [[] [] [] [] [] []], k; reflexivity.
Qed.

End MainRunExtras.

Module LoggingExtras.
Import String Logging.
Local Open Scope string_scope.

Lemma substring_0_all (s : string) (m : nat) :
  (String.length s <= m)%nat -> substring 0 m s = s.
Proof.
  revert m; induction s as [|c s IH]; intros m Hm; simpl in *.
  - destruct m; reflexivity.
  - destruct m as [|m]; [lia|]. simpl. f_equal. apply IH. lia.
Qed.

Lemma length_append (s1 s2 : string) :
  String.length (s1 ++ s2) = (String.length s1 + String.length s2)%nat.
Proof.
  induction s1 as [|c s1 IH]; simpl; auto.
Qed.

Lemma append_assoc (s1 s2 s3 : string) : (s1 ++ s2) ++ s3 = s1 ++ (s2 ++ s3).
Proof.
  induction s1 as [|c s1 IH]; simpl; [reflexivity | now rewrite IH].
Qed.

(** The paths [log_init] builds from a directory base [b] and suffix
    [sfx], when nothing is truncated. *)
Lemma log_paths (b sfx : string) :
  (String.length b + String.length sfx + 13 <= 511)%nat ->
  snprintf512 (b ++ sfx) = b ++ sfx /\
  snprintf512 (snprintf512 (b ++ sfx) ++ "/renderer.log") =
    b ++ (sfx ++ "/renderer.log").
Proof.
  intros H. unfold snprintf512.
  assert (H1 : substring 0 511 (b ++ sfx) = b ++ sfx)
    by (apply substring_0_all; rewrite length_append; lia).
  rewrite H1. split; [reflexivity|].
  rewrite substring_0_all, append_assoc; [reflexivity|].
  rewrite !length_append. simpl. lia.
Qed.

Ltac log_cases :=
  repeat match goal with
  | |- context [if ?b then _ else _] => destruct b
  | |- context [match ?o with Some _ => _ | None => _ end] => destruct o
  end.

(** X: with [XDG_STATE_HOME] set to a non-empty [x] (short enough for
    the 512-byte buffers), the only directory [log_init] creates is
    [x/breezy_desktop] and the only file it opens is
    [x/breezy_desktop/renderer.log]. *)
Theorem log_init_xdg_paths (env : LogEnv) (x : string)
  (Hx : xdg_state_home env = Some x) (Hne : x <> EmptyString)
  (Hlen : (String.length x + 28 <= 511)%nat) :
  let '(_, _, effs) := log_init env (mkLogState None false) in
  forall e, In e effs ->
  match e with
  | Mkdir p => p = x ++ "/breezy_desktop"
  | Fopen p => p = x ++ "/breezy_desktop/renderer.log"
  | _ => True
  end.
Proof.
  destruct (log_paths x "/breezy_desktop") as [H1 H2]; [simpl; lia|].
  unfold log_init. rewrite Hx.
  replace (String.eqb x EmptyString) with false
    by (symmetry; apply eqb_neq; exact Hne).
  cbn [log_initialized]. rewrite H2, H1.
  log_cases; simpl; intros e He;
    repeat (destruct He as [<-|He]; [reflexivity || exact I|]); contradiction.
Qed.

Lemma log_init_xdg_paths_witness :
  let env := mkLogEnv (Some "/var/state") (Some "/home/u") false true (Some 3) in
  let '(_, _, effs) := log_init env (mkLogState None false) in
  forall e, In e effs ->
  match e with
  | Mkdir p => p = "/var/state" ++ "/breezy_desktop"
  | Fopen p => p = "/var/state" ++ "/breezy_desktop/renderer.log"
  | _ => True
  end.
Proof.
  intros env. apply log_init_xdg_paths.
  - reflexivity.
  - discriminate.
  - simpl. lia.
Defined.

(** X: with [XDG_STATE_HOME] unset or empty, [log_init] falls back to
    [HOME]: it creates only [HOME/.local/state/breezy_desktop] and opens
    only [HOME/.local/state/breezy_desktop/renderer.log]; with [HOME]
    unset too it fails with only a message on [stderr] and changes
    nothing. *)
Theorem log_init_home_fallback (env : LogEnv)
  (Hx : match xdg_state_home env with Some x => x = EmptyString | None => True end) :
  let '(ret, st', effs) := log_init env (mkLogState None false) in
  match home env with
  | None => ret = -1 /\ st' = mkLogState None false /\ effs = [WriteStderr]
  | Some hm =>
      (String.length hm + 41 <= 511)%nat ->
      forall e, In e effs ->
      match e with
      | Mkdir p => p = hm ++ "/.local/state/breezy_desktop"
      | Fopen p => p = hm ++ "/.local/state/breezy_desktop/renderer.log"
      | _ => True
      end
  end.
Proof.
  unfold log_init. cbn [log_initialized].
  assert (Hd : match xdg_state_home env with
               | Some x => if String.eqb x EmptyString then None
                           else Some (snprintf512 (x ++ "/breezy_desktop"))
               | None => None
               end = None).
  { destruct (xdg_state_home env) as [x|]; [subst x; reflexivity | reflexivity]. }
  rewrite Hd. destruct (home env) as [hm|]; cbv beta iota; [|repeat split].
  destruct (Nat.le_gt_cases (String.length hm + 41) 511) as [Hlen|Hlen].
  - destruct (log_paths hm "/.local/state/breezy_desktop") as [H1 H2];
      [simpl; lia|].
    rewrite H2, H1.
    log_cases; simpl; intros _ e He;
      repeat (destruct He as [<-|He]; [reflexivity || exact I|]); contradiction.
  - log_cases; cbv beta iota; intros Hl; lia.
Qed.

Lemma log_init_home_fallback_witness :
  let env := mkLogEnv None (Some "/home/u") true true (Some 3) in
  let '(ret, st', effs) := log_init env (mkLogState None false) in
  (String.length "/home/u" + 41 <= 511)%nat ->
  forall e, In e effs ->
  match e with
  | Mkdir p => p = "/home/u" ++ "/.local/state/breezy_desktop"
  | Fopen p => p = "/home/u" ++ "/.local/state/breezy_desktop/renderer.log"
  | _ => True
  end.
Proof.
  intros env.
  exact (log_init_home_fallback env I).
Defined.

(** X: [log_init] opens a log file exactly when it returns 0; then it
    logs to that file, a second [log_init] does nothing, and
    [log_cleanup] writes its last message to the file and closes it once,
    after which messages go to [stderr] and a second cleanup does
    nothing.  After a failed [log_init] no file is open, messages go to
    [stderr] and [log_cleanup] closes nothing. *)
Theorem log_lifecycle (env : LogEnv) :
  let '(ret, st1, effs1) := log_init env (mkLogState None false) in
  match log_file st1 with
  | Some h =>
      ret = 0 /\ log_initialized st1 = true /\ In (WriteFile h) effs1 /\
      (forall env', log_init env' st1 = (0, st1, [])) /\
      log_cleanup st1 = (mkLogState None false, [WriteFile h; Fclose h]) /\
      do_log (fst (log_cleanup st1)) = [WriteStderr] /\
      snd (log_cleanup (fst (log_cleanup st1))) = []
  | None =>
      ret = -1 /\ log_initialized st1 = false /\ do_log st1 = [WriteStderr] /\
      snd (log_cleanup st1) = []
  end.
Proof.
  destruct env as [[x|] [hm|] de mk [h|]]; unfold log_init;
    cbn [log_initialized xdg_state_home home dir_exists mkdir_ok_or_exists
         fopen_result];
    try destruct (String.eqb x EmptyString); destruct de, mk; simpl;
    repeat split; try reflexivity; try (intros; reflexivity);
    repeat match goal with
           | |- _ \/ _ => first [left; reflexivity | right]
           end.
Qed.

End LoggingExtras.

Module UniformsExtras.
Import BreezyMath Uniforms.
Local Open Scope R_scope.

(** X: [set_shader_uniforms] uploads uniforms exactly when the shader
    program is non-zero and the IMU sample and config are valid, and the
    look-ahead it computes inline is the math library's
    [breezy_calculate_look_ahead_ms] with the configured constant and no
    override (any negative override). *)
Theorem uniforms_look_ahead_matches_library (shader_program refresh_rate : Z)
  (imu_valid : bool) (imu_timestamp_ms : Z) (config : ConfigR)
  (width height now_ms : Z) (override : R) (Ho : override < 0) :
  match set_shader_uniforms shader_program refresh_rate imu_valid
          imu_timestamp_ms config width height now_ms with
  | Some u =>
      shader_program <> 0%Z /\ imu_valid = true /\ config_valid config = true /\
      u_look_ahead_ms u =
        breezy_calculate_look_ahead_ms imu_timestamp_ms now_ms
          (look_ahead_cfg0 config) override
  | None =>
      shader_program = 0%Z \/ imu_valid = false \/ config_valid config = false
  end.
Proof.
  unfold set_shader_uniforms.
  destruct (Z.eqb_spec shader_program 0) as [H0|H0]; [left; exact H0|].
  destruct imu_valid; [|right; left; reflexivity].
  destruct (config_valid config) eqn:Hc; [|right; right; reflexivity].
  simpl. repeat split; auto.
  unfold breezy_calculate_look_ahead_ms.
  destruct (Rle_dec 0 override); [lra | reflexivity].
Qed.

Lemma uniforms_look_ahead_matches_library_witness :
  -1 < 0 /\
  match set_shader_uniforms 1 90 true 1000
          (mkConfigR 10 1920 1080 46 (5 / 100) false false true) 1920 1080 1005 with
  | Some u => u_look_ahead_ms u = breezy_calculate_look_ahead_ms 1000 1005 10 (-1)
  | None => False
  end.
Proof.
  assert (H : -1 < 0) by lra. split; [exact H|].
  pose proof (uniforms_look_ahead_matches_library 1 90 true 1000
    (mkConfigR 10 1920 1080 46 (5 / 100) false false true) 1920 1080 1005 (-1) H)
    as Hm.
  destruct (set_shader_uniforms 1 90 true 1000
              (mkConfigR 10 1920 1080 46 (5 / 100) false false true) 1920 1080 1005);
    [exact (proj2 (proj2 (proj2 Hm))) | destruct Hm as [E|[E|E]]; discriminate].
Defined.

End UniformsExtras.
